(** * Speed Editor to Mackie Control bridge: a shallow embedding of
      [speed-editor-to-mackie.py] and the properties of its translation logic.

    The Python class [MackieHandler] is embedded method by method.  Python
    integers are unbounded, so they are [Z]; [//] is floor division, which on
    [Z] is [Z.div]; sets are [gset], dictionaries are [gmap].  A method is a
    computation in a small monad [M] that threads the attributes reachable
    from [self], records what is sent to the MIDI port and to the device, and
    may raise a Python exception. *)

From stdpp Require Import base decidable countable gmap list strings.
From Equations Require Import Equations.
From Stdlib Require Import ZArith Lia.

Local Open Scope Z_scope.
Set Warnings "-clear-no-such-hyp".

(** ** The enumerations imported from [bmd] *)

(** [bmd.SpeedEditorKey]: the members the bridge names, and [OTHER n] for every
    other member of the enumeration (they are only ever compared and stored). *)
Module SpeedEditorKey.
Inductive t : Set :=
| SHTL | JOG | SCRL
| IN | OUT | TRIM_IN | TRIM_OUT
| ROLL
| STOP_PLAY | FULL_VIEW | CUT | SPLIT | LIVE_OWR | ESC | TRANS | RIPL_DEL
| OTHER (n : nat).

Definition tag (k : t) : nat :=
  match k with
  | SHTL => 0 | JOG => 1 | SCRL => 2
  | IN => 3 | OUT => 4 | TRIM_IN => 5 | TRIM_OUT => 6
  | ROLL => 7
  | STOP_PLAY => 8 | FULL_VIEW => 9 | CUT => 10 | SPLIT => 11
  | LIVE_OWR => 12 | ESC => 13 | TRANS => 14 | RIPL_DEL => 15
  | OTHER n => 16 + n
  end%nat.

Definition of_tag (i : nat) : t :=
  match i with
  | 0 => SHTL | 1 => JOG | 2 => SCRL
  | 3 => IN | 4 => OUT | 5 => TRIM_IN | 6 => TRIM_OUT
  | 7 => ROLL
  | 8 => STOP_PLAY | 9 => FULL_VIEW | 10 => CUT | 11 => SPLIT
  | 12 => LIVE_OWR | 13 => ESC | 14 => TRANS | 15 => RIPL_DEL
  | S (S (S (S (S (S (S (S (S (S (S (S (S (S (S (S n))))))))))))))) => OTHER n
  end%nat.

Lemma of_tag_tag k : of_tag (tag k) = k.
Proof. by destruct k. Qed.

#[global] Instance key_eq_dec : EqDecision t.
Proof. solve_decision. Defined.

#[global] Instance key_countable : Countable t := inj_countable' tag of_tag of_tag_tag.
End SpeedEditorKey.

(** [bmd.SpeedEditorJogLed]: the three ring LEDs the bridge selects. *)
Module SpeedEditorJogLed.
Inductive t : Set := SHTL | JOG | SCRL.
End SpeedEditorJogLed.

(** [bmd.SpeedEditorJogMode]: the bridge only ever asks for [RELATIVE_2];
    [OTHER n] stands for the other members. *)
Module SpeedEditorJogMode.
Inductive t : Set := RELATIVE_2 | OTHER (n : nat).
End SpeedEditorJogMode.

(** [class KeyModifiers(enum.IntEnum)] *)
Module KeyModifiers.
Inductive t : Set := NUDGE.

Definition value (m : t) : Z := match m with NUDGE => 1 end.

#[global] Instance modifier_eq_dec : EqDecision t.
Proof. solve_decision. Defined.

#[global] Instance modifier_countable : Countable t :=
  inj_countable' (λ _, ()) (λ _, NUDGE) (λ m, match m with NUDGE => eq_refl end).
End KeyModifiers.

(** ** What the bridge talks to *)

(** A message taken from [midi_in.receive()]: only [note_on] is inspected. *)
Inductive mido_msg : Set :=
| note_on (note velocity : Z)
| other_msg.

(** Everything a method does to the outside, in program order. *)
Inductive Out : Set :=
| midi_note_on (note velocity : Z)            (* midi_out.send(Message('note_on', ...)) *)
| midi_control_change (control value : Z)     (* midi_out.send(Message('control_change', ...)) *)
| se_set_leds (mask : Z)                      (* se.set_leds *)
| se_set_jog_leds (led : SpeedEditorJogLed.t) (* se.set_jog_leds *)
| se_set_jog_mode (m : SpeedEditorJogMode.t)  (* se.set_jog_mode *)
| timer_start                                 (* threading.Timer(ZOOM_REPEAT_TIME, self.zoom_repeat).start() *)
| enter_key_released (k : SpeedEditorKey.t)   (* ghost: control enters key_released(k) *)
| enter_key_pressed (k : SpeedEditorKey.t)    (* ghost: control enters key_pressed(k) *)
| enter_send_midi_nudge_msgs (shift : Z)      (* ghost: control enters send_midi_nudge_msgs(shift) *)
| enter_send_midi_jog_cc (shift : Z).         (* ghost: control enters send_midi_jog_cc(shift) *)

#[global] Instance Out_eq_dec : EqDecision Out.
Proof.
  unfold EqDecision, Decision.
  decide equality; try apply Z.eq_dec; try apply SpeedEditorKey.key_eq_dec;
    decide equality; apply Nat.eq_dec.
Defined.

Inductive exn : Set := KeyError.

(** ** Attributes *)

(** The attributes bound in the class body that are mutated at run time.
    [modifiers = set()] is evaluated once, when the class is created; no method
    ever assigns [self.modifiers], so [self.modifiers] always denotes this one
    set object, whichever instance [self] is. *)
Record class_attrs : Type := ClassAttrs {
  modifiers : gset KeyModifiers.t
}.

(** The attributes [__init__] binds on the instance. *)
Record instance_attrs : Type := InstanceAttrs {
  zoom_timer_on : bool;
  keys : gset SpeedEditorKey.t;
  leds : Z;
  play_state : bool;
  zoom_mode : bool;
  scrub_mode : bool;
  jog_unsent : Z;
  jog_mode : SpeedEditorKey.t
}.

(** What a method sees through [self]. *)
Record Self : Type := MkSelf {
  cls : class_attrs;
  obj : instance_attrs
}.

Definition set_modifiers (v : gset KeyModifiers.t) (s : Self) : Self :=
  MkSelf (ClassAttrs v) (obj s).

Definition with_obj (f : instance_attrs → instance_attrs) (s : Self) : Self :=
  MkSelf (cls s) (f (obj s)).

Definition set_zoom_timer_on (v : bool) : Self → Self :=
  with_obj (λ o, InstanceAttrs v (keys o) (leds o) (play_state o) (zoom_mode o)
                               (scrub_mode o) (jog_unsent o) (jog_mode o)).
Definition set_keys (v : gset SpeedEditorKey.t) : Self → Self :=
  with_obj (λ o, InstanceAttrs (zoom_timer_on o) v (leds o) (play_state o) (zoom_mode o)
                               (scrub_mode o) (jog_unsent o) (jog_mode o)).
Definition set_leds (v : Z) : Self → Self :=
  with_obj (λ o, InstanceAttrs (zoom_timer_on o) (keys o) v (play_state o) (zoom_mode o)
                               (scrub_mode o) (jog_unsent o) (jog_mode o)).
Definition set_play_state (v : bool) : Self → Self :=
  with_obj (λ o, InstanceAttrs (zoom_timer_on o) (keys o) (leds o) v (zoom_mode o)
                               (scrub_mode o) (jog_unsent o) (jog_mode o)).
Definition set_zoom_mode_attr (v : bool) : Self → Self :=
  with_obj (λ o, InstanceAttrs (zoom_timer_on o) (keys o) (leds o) (play_state o) v
                               (scrub_mode o) (jog_unsent o) (jog_mode o)).
Definition set_scrub_mode (v : bool) : Self → Self :=
  with_obj (λ o, InstanceAttrs (zoom_timer_on o) (keys o) (leds o) (play_state o) (zoom_mode o)
                               v (jog_unsent o) (jog_mode o)).
Definition set_jog_unsent (v : Z) : Self → Self :=
  with_obj (λ o, InstanceAttrs (zoom_timer_on o) (keys o) (leds o) (play_state o) (zoom_mode o)
                               (scrub_mode o) v (jog_mode o)).
Definition set_jog_mode (v : SpeedEditorKey.t) : Self → Self :=
  with_obj (λ o, InstanceAttrs (zoom_timer_on o) (keys o) (leds o) (play_state o) (zoom_mode o)
                               (scrub_mode o) (jog_unsent o) v).

(** ** The method monad *)

(** The outcome of running a method: the value returned or the exception
    raised, the attributes as the method left them (assignments made before an
    exception stay made), and what was sent. *)
Record Res (A : Type) : Type := MkRes {
  outcome : exn + A;
  final : Self;
  sent : list Out
}.
Arguments MkRes {A} _ _ _.
Arguments outcome {A} _.
Arguments final {A} _.
Arguments sent {A} _.

Definition M (A : Type) : Type := Self → Res A.

#[global] Instance M_ret : MRet M := λ A a s, MkRes (inr a) s [].

#[global] Instance M_bind : MBind M := λ A B f m s,
  let r := m s in
  match outcome r with
  | inl e => MkRes (inl e) (final r) (sent r)
  | inr a => let r' := f a (final r) in
             MkRes (outcome r') (final r') (sent r ++ sent r')
  end.

Definition get : M Self := λ s, MkRes (inr s) s [].
Definition modify (f : Self → Self) : M unit := λ s, MkRes (inr ()) (f s) [].
Definition emit (o : Out) : M unit := λ s, MkRes (inr ()) s [o].
Definition raise {A} (e : exn) : M A := λ s, MkRes (inl e) s [].

(** [for x in xs: body(x)] *)
Fixpoint for_each {A} (xs : list A) (body : A → M unit) : M unit :=
  match xs with
  | [] => mret ()
  | x :: xs' => body x ;; for_each xs' body
  end.

(** [d[k]] on a dictionary: [KeyError] when [k] is not a key. *)
Definition subscript {K V} `{Countable K} (d : gmap K V) (k : K) : M V :=
  match d !! k with
  | Some v => mret v
  | None => raise KeyError
  end.

(** A result with one more output in front. *)
Definition after (o : Out) {A} (r : Res A) : Res A :=
  MkRes (outcome r) (final r) (o :: sent r).

Definition when (b : bool) (m : M unit) : M unit := if b then m else mret ().

(** ** [class MackieHandler(SpeedEditorHandler)] *)

Module MackieHandler.

Definition JOG : gmap SpeedEditorKey.t (SpeedEditorJogLed.t * SpeedEditorJogMode.t) :=
  {[ SpeedEditorKey.SHTL := (SpeedEditorJogLed.SHTL, SpeedEditorJogMode.RELATIVE_2);
     SpeedEditorKey.JOG := (SpeedEditorJogLed.JOG, SpeedEditorJogMode.RELATIVE_2);
     SpeedEditorKey.SCRL := (SpeedEditorJogLed.SCRL, SpeedEditorJogMode.RELATIVE_2) ]}.

Definition JOG_SPEED_DIV_FACTOR : gmap SpeedEditorKey.t Z :=
  {[ SpeedEditorKey.SHTL := 20;
     SpeedEditorKey.JOG := 15;
     SpeedEditorKey.SCRL := 1 ]}.

Definition MCU_JOG_CC : Z := 0x3c.
Definition MCU_STOP : Z := 0x5D.
Definition MCU_PLAY : Z := 0x5E.
Definition MCU_REC : Z := 0x5F.
Definition MCU_UP : Z := 0x60.
Definition MCU_DOWN : Z := 0x61.
Definition MCU_LEFT : Z := 0x62.
Definition MCU_RIGHT : Z := 0x63.
Definition MCU_ZOOM : Z := 0x64.
Definition MCU_SCRUB : Z := 0x65.
Definition MCU_USER_A : Z := 0x66.
Definition MCU_USER_B : Z := 0x67.
Definition MCU_F1 : Z := 0x36.
Definition MCU_F2 : Z := 0x37.
Definition MCU_F3 : Z := 0x38.
Definition MCU_F4 : Z := 0x39.
Definition MCU_F5 : Z := 0x3a.
Definition MCU_F6 : Z := 0x3b.
Definition MCU_F7 : Z := 0x3c.
Definition MCU_F8 : Z := 0x3d.

Definition ZOOM_KEYS : list SpeedEditorKey.t :=
  [SpeedEditorKey.IN; SpeedEditorKey.OUT; SpeedEditorKey.TRIM_IN; SpeedEditorKey.TRIM_OUT].

Definition MODIFIER_KEY_MAP : gmap SpeedEditorKey.t KeyModifiers.t :=
  {[ SpeedEditorKey.ROLL := KeyModifiers.NUDGE ]}.

Definition RAMP_THRESHOLD : Z := 5.
Definition RAMP_FACTOR : Z := 5.

(** [if modifier:] on the result of [MODIFIER_KEY_MAP.get(k)]: [None] is
    false, and a member of an [IntEnum] is true when its value is not 0. *)
Definition truthy (o : option KeyModifiers.t) : bool :=
  match o with
  | None => false
  | Some m => bool_decide (KeyModifiers.value m ≠ 0)
  end.

Definition send_midi_note (note : Z) : M unit :=
  emit (midi_note_on note 127).

Definition _set_jog_mode_for_key (key : SpeedEditorKey.t) : M unit :=
  match JOG !! key with
  | None => mret ()
  | Some (led, mode) =>
      modify (set_jog_mode key) ;;
      emit (se_set_jog_leds led) ;;
      emit (se_set_jog_mode mode)
  end.

(** The [while abs_val_full > 0] loop of [send_midi_jog_cc]. *)
Equations? send_midi_jog_cc_loop (shift abs_val_full : Z) : M unit
  by wf (Z.to_nat abs_val_full) lt :=
send_midi_jog_cc_loop shift abs_val_full with decide (abs_val_full > 0) := {
  | left _ =>
      let abs_val := if decide (abs_val_full > 63) then 63 else abs_val_full in
      let sign := Z.shiftl (if decide (shift < 0) then 1 else 0) 6 in
      let val := Z.lor abs_val sign in
      emit (midi_control_change MCU_JOG_CC val) ;;
      send_midi_jog_cc_loop shift (abs_val_full - abs_val)
  | right _ => mret () }.
Proof. subst abs_val. case_decide; lia. Qed.

Definition send_midi_jog_cc (shift : Z) : M unit :=
  emit (enter_send_midi_jog_cc shift) ;;
  let abs_val_full := Z.abs shift in
  send_midi_jog_cc_loop shift abs_val_full.

Definition send_midi_nudge_msgs (shift : Z) : M unit :=
  emit (enter_send_midi_nudge_msgs shift) ;;
  let abs_val := Z.abs shift in
  let abs_val :=
    if decide (abs_val > RAMP_THRESHOLD)
    then (abs_val - RAMP_THRESHOLD) * RAMP_FACTOR + RAMP_THRESHOLD
    else abs_val in
  s ← get;
  let msg :=
    if decide (KeyModifiers.NUDGE ∈ modifiers (cls s))
    then (if decide (shift < 0) then MCU_USER_A else MCU_USER_B)
    else (if decide (shift < 0) then MCU_F1 else MCU_F2) in
  for_each (seqZ 0 abs_val) (λ i, send_midi_note msg).

Definition jog (mode : SpeedEditorJogMode.t) (value : Z) : M unit :=
  let value := value `div` 360 in
  s ← get;
  modify (set_jog_unsent (jog_unsent (obj s) + value)) ;;
  s ← get;
  speed_div_factor ← subscript JOG_SPEED_DIV_FACTOR (jog_mode (obj s));
  let value_to_send := jog_unsent (obj s) `div` speed_div_factor in
  if decide (value_to_send = 0) then mret () else
  modify (set_jog_unsent (jog_unsent (obj s) - value_to_send * speed_div_factor)) ;;
  s ← get;
  if decide (jog_mode (obj s) = SpeedEditorKey.SHTL)
  then send_midi_nudge_msgs value_to_send
  else send_midi_jog_cc value_to_send.

Definition set_zoom_mode : M unit :=
  s ← get;
  when (negb (zoom_mode (obj s))) (send_midi_note MCU_ZOOM).

Definition set_zoom_timer : M unit :=
  s ← get;
  when (negb (zoom_timer_on (obj s)))
       (modify (set_zoom_timer_on true) ;; emit timer_start).

Definition zoom_handle_keys : M unit :=
  s ← get;
  let held k := bool_decide (k ∈ keys (obj s)) in
  zoom_pressed ←
    (if existsb held ZOOM_KEYS
     then set_zoom_mode ;; mret true
     else mret false);
  when (held SpeedEditorKey.IN) (send_midi_note MCU_RIGHT) ;;
  when (held SpeedEditorKey.OUT) (send_midi_note MCU_LEFT) ;;
  when (held SpeedEditorKey.TRIM_IN) (send_midi_note MCU_DOWN) ;;
  when (held SpeedEditorKey.TRIM_OUT) (send_midi_note MCU_UP) ;;
  when zoom_pressed set_zoom_timer.

(** The callback handed to [threading.Timer]. *)
Definition zoom_repeat : M unit :=
  modify (set_zoom_timer_on false) ;;
  zoom_handle_keys.

Definition modifier_pressed (k : SpeedEditorKey.t) : M unit :=
  let modifier := MODIFIER_KEY_MAP !! k in
  match modifier with
  | Some m =>
      when (truthy modifier)
           (s ← get; modify (set_modifiers (modifiers (cls s) ∪ {[ m ]})))
  | None => mret ()
  end.

(** [set.remove] raises [KeyError] when the element is absent. *)
Definition modifier_released (k : SpeedEditorKey.t) : M unit :=
  let modifier := MODIFIER_KEY_MAP !! k in
  match modifier with
  | Some m =>
      when (truthy modifier)
           (s ← get;
            if decide (m ∈ modifiers (cls s))
            then modify (set_modifiers (modifiers (cls s) ∖ {[ m ]}))
            else raise KeyError)
  | None => mret ()
  end.

Definition key_released (k : SpeedEditorKey.t) : M unit :=
  emit (enter_key_released k) ;;
  modifier_released k.

Definition key_pressed (k : SpeedEditorKey.t) : M unit :=
  emit (enter_key_pressed k) ;;
  _set_jog_mode_for_key k ;;
  modifier_pressed k ;;
  when (bool_decide (k = SpeedEditorKey.STOP_PLAY))
       (s ← get;
        if play_state (obj s) then send_midi_note MCU_STOP else send_midi_note MCU_PLAY) ;;
  when (bool_decide (k = SpeedEditorKey.FULL_VIEW)) (send_midi_note MCU_REC) ;;
  when (bool_decide (k = SpeedEditorKey.CUT)) (send_midi_note MCU_F3) ;;
  when (bool_decide (k = SpeedEditorKey.SPLIT)) (send_midi_note MCU_F4) ;;
  when (bool_decide (k = SpeedEditorKey.LIVE_OWR)) (send_midi_note MCU_F5) ;;
  when (bool_decide (k = SpeedEditorKey.ESC)) (send_midi_note MCU_F6) ;;
  when (bool_decide (k = SpeedEditorKey.TRANS)) (send_midi_note MCU_F7) ;;
  when (bool_decide (k = SpeedEditorKey.RIPL_DEL)) (send_midi_note MCU_F8) ;;
  when (bool_decide (k ∈ ZOOM_KEYS)) zoom_handle_keys.

(** [key]: the [print] of the held keys goes to the console and is left out.
    Python fixes no order for iterating over a set; [elements] is one. *)
Definition key (keys_held : list SpeedEditorKey.t) : M unit :=
  let keys_set : gset SpeedEditorKey.t := list_to_set keys_held in
  s ← get;
  let released := keys (obj s) ∖ keys_set in
  let pressed := keys_set ∖ keys (obj s) in
  modify (set_keys keys_set) ;;
  for_each (elements released) key_released ;;
  for_each (elements pressed) key_pressed.

(** [bmd.SpeedEditorLed.CAM1] ... [CAM9]: flag values declared in [bmd]; the
    bridge only combines them, so they are left open. *)
Section camera_leds.
Variables CAM1 CAM2 CAM3 CAM4 CAM5 CAM6 CAM7 CAM8 CAM9 : Z.

Definition led_set : Z :=
  Z.lor (Z.lor (Z.lor (Z.lor (Z.lor (Z.lor (Z.lor (Z.lor CAM1 CAM2) CAM3) CAM4) CAM5) CAM6) CAM7) CAM8) CAM9.

(** One turn of the [while True] loop of [receive_thread], for the message
    [msg] that [midi_in.receive()] returned. *)
Definition receive_thread_body (msg : mido_msg) : M unit :=
  match msg with
  | note_on note velocity =>
      when (bool_decide (note = MCU_PLAY))
           (modify (set_play_state (bool_decide (velocity > 0))) ;;
            s ← get;
            modify (set_leds (Z.land (leds (obj s)) (Z.lnot led_set))) ;;
            s ← get;
            when (play_state (obj s))
                 (modify (set_leds (Z.lor (leds (obj s)) led_set))) ;;
            s ← get;
            emit (se_set_leds (leds (obj s)))) ;;
      when (bool_decide (note = MCU_ZOOM))
           (modify (set_zoom_mode_attr (bool_decide (velocity > 0)))) ;;
      when (bool_decide (note = MCU_SCRUB))
           (modify (set_scrub_mode (bool_decide (velocity > 0))))
  | other_msg => mret ()
  end.

End camera_leds.

(** [__init__], up to the opening of the MIDI ports and the start of the
    receive thread (both belong to the transport). *)
Definition __init__ : M unit :=
  modify (set_zoom_timer_on false) ;;
  modify (set_keys ∅) ;;
  modify (set_leds 0) ;;
  s ← get;
  emit (se_set_leds (leds (obj s))) ;;
  modify (set_play_state false) ;;
  modify (set_zoom_mode_attr false) ;;
  modify (set_scrub_mode false) ;;
  modify (set_jog_unsent 0) ;;
  _set_jog_mode_for_key SpeedEditorKey.JOG.

End MackieHandler.

(** ** Several handlers in one interpreter *)

(** The class object with its attributes, and the instances created so far. *)
Record World : Type := MkWorld {
  shared : class_attrs;
  handlers : list instance_attrs
}.

(** The state once the [class] statement has run: [modifiers = set()]. *)
Definition class_created : World := MkWorld (ClassAttrs ∅) [].

(** An instance before [__init__] has bound anything; [__init__] assigns every
    attribute, so these values are never read. *)
Definition unbound : instance_attrs :=
  InstanceAttrs false ∅ 0 false false false 0 (SpeedEditorKey.OTHER 0).

(** [MackieHandler(se)]: the new instance gets the next index. *)
Definition construct (w : World) : World * list Out :=
  let r := MackieHandler.__init__ (MkSelf (shared w) unbound) in
  (MkWorld (cls (final r)) (handlers w ++ [obj (final r)]), sent r).

(** [h.m(...)] for the instance [h] of index [i]. *)
Definition call {A} (i : nat) (m : M A) (w : World) : option (World * Res A) :=
  o ← handlers w !! i;
  let r := m (MkSelf (shared w) o) in
  Some (MkWorld (cls (final r)) (<[i := obj (final r)]> (handlers w)), r).

(** [h.modifiers] for the instance of index [i]. *)
Definition modifiers_of (i : nat) (w : World) : option (gset KeyModifiers.t) :=
  o ← handlers w !! i;
  Some (modifiers (cls (MkSelf (shared w) o))).

(** ** One handler with its threads *)

Definition timers_started (out : list Out) : nat :=
  length (filter (λ o, o = timer_start) out).


(** The handler of the running bridge and the number of [threading.Timer]s
    started and not yet fired. *)
Record Sys : Type := MkSys {
  self : Self;
  timers : nat
}.

(** What can happen next: the poll loop delivers a key snapshot or a jog
    delta, the receive thread gets a message, a timer fires. *)
Inductive event : Type :=
| ev_key (keys_held : list SpeedEditorKey.t)
| ev_jog (mode : SpeedEditorJogMode.t) (value : Z)
| ev_receive (msg : mido_msg)
| ev_timer.

Section bridge.
Variables CAM1 CAM2 CAM3 CAM4 CAM5 CAM6 CAM7 CAM8 CAM9 : Z.

Definition handler_of (e : event) : M unit :=
  match e with
  | ev_key keys_held => MackieHandler.key keys_held
  | ev_jog mode value => MackieHandler.jog mode value
  | ev_receive msg =>
      MackieHandler.receive_thread_body CAM1 CAM2 CAM3 CAM4 CAM5 CAM6 CAM7 CAM8 CAM9 msg
  | ev_timer => MackieHandler.zoom_repeat
  end.

Definition fires (e : event) : nat :=
  match e with ev_timer => 1 | _ => 0 end.

(** Each handler runs to completion before the next event is taken.  A timer
    can only fire when one is outstanding. *)
Definition step (e : event) (y : Sys) : option Sys :=
  if decide (fires e ≤ timers y)%nat then
    let r := handler_of e (self y) in
    Some (MkSys (final r) (timers y - fires e + timers_started (sent r)))
  else None.

Fixpoint run (evs : list event) (y : Sys) : option Sys :=
  match evs with
  | [] => Some y
  | e :: evs' => y' ← step e y; run evs' y'
  end.

End bridge.

(** The bridge after start-up: the class created, one handler constructed. *)
Definition boot : Sys :=
  MkSys (final (MackieHandler.__init__ (MkSelf (ClassAttrs ∅) unbound))) 0.

(** ** Reading the outputs back *)

(** The 7-bit value of a jog control change: bits 0 to 5 are the magnitude,
    bit 6 is the sign flag. *)
Definition cc_magnitude (value : Z) : Z := Z.land value 63.
Definition cc_sign (value : Z) : bool := Z.testbit value 6.

Definition sum_magnitudes (values : list Z) : Z :=
  foldr (λ v acc, cc_magnitude v + acc) 0 values.

(** What one control-change value carries, for a chunk [c] and sign flag [b]. *)
Definition chunk_ok (b : bool) (v : Z) : Prop :=
  1 ≤ cc_magnitude v ≤ 63 ∧ cc_sign v = b ∧ 0 ≤ v < 128.

(** The step counts handed to the two encoders, in order. *)
Definition steps_handed_over (out : list Out) : list Z :=
  omap (λ o, match o with
             | enter_send_midi_nudge_msgs shift => Some shift
             | enter_send_midi_jog_cc shift => Some shift
             | _ => None
             end) out.

(** The calls of [key_released] and [key_pressed], in order. *)
Definition is_key_edge (o : Out) : bool :=
  match o with
  | enter_key_released _ | enter_key_pressed _ => true
  | _ => false
  end.

Definition key_edges (out : list Out) : list Out :=
  filter (λ o, is_key_edge o) out.

(** [m] respects the relation [R] between the attributes before, what is
    sent, and the attributes after -- whether [m] returns or raises. *)
Definition respects (R : Self → list Out → Self → Prop) {A} (m : M A) : Prop :=
  ∀ s, R s (sent (m s)) (final (m s)).

Definition armed (s : Self) : nat := if zoom_timer_on (obj s) then 1 else 0.

Definition mode_known (s : Self) : Prop :=
  is_Some (MackieHandler.JOG_SPEED_DIV_FACTOR !! jog_mode (obj s)).

(** What every method but [jog] and the timer callback guarantees: each timer
    started is accounted for by the flag, the jog remainder is not touched, no
    step is handed to an encoder, a known jog mode stays known. *)
Definition quiet (s : Self) (out : list Out) (s' : Self) : Prop :=
  armed s' = (armed s + timers_started out)%nat ∧
  jog_unsent (obj s') = jog_unsent (obj s) ∧
  steps_handed_over out = [] ∧
  (mode_known s → mode_known s').

(** An output that neither starts a timer nor hands steps to an encoder. *)
Definition plain (o : Out) : bool :=
  match o with
  | timer_start | enter_send_midi_nudge_msgs _ | enter_send_midi_jog_cc _ => false
  | _ => true
  end.

(** An assignment that leaves the timer flag and the jog remainder alone and
    keeps the jog mode or sets a known one. *)
Definition benign (f : Self → Self) : Prop :=
  ∀ s, zoom_timer_on (obj (f s)) = zoom_timer_on (obj s) ∧
       jog_unsent (obj (f s)) = jog_unsent (obj s) ∧
       (mode_known s → mode_known (f s)).

(** Every held key that stands for a modifier has its modifier active. *)
Definition held_modifier (s : Self) : Prop :=
  ∀ k m, MackieHandler.MODIFIER_KEY_MAP !! k = Some m →
         k ∈ keys (obj s) → m ∈ modifiers (cls s).

(** What every method but [key] and [key_released] guarantees: the held keys
    stay, no modifier is dropped, no key edge is handled. *)
Definition grows (s : Self) (out : list Out) (s' : Self) : Prop :=
  keys (obj s') = keys (obj s) ∧
  modifiers (cls s) ⊆ modifiers (cls s') ∧
  key_edges out = [].

(** [m] never raises. *)
Definition returns {A} (m : M A) : Prop :=
  ∀ s, ∃ a, outcome (m s) = inr a.

(** What holds of the bridge between any two events: the timers outstanding
    are exactly the one the flag stands for, the jog mode has a factor, and
    the held modifier keys have their modifiers active. *)
Definition sys_inv (y : Sys) : Prop :=
  timers y = armed (self y) ∧ mode_known (self y) ∧ held_modifier (self y).

(** The rotation a run takes in, in native units: [value // 360] per jog call. *)
Definition native_units (e : event) : Z :=
  match e with
  | ev_jog _ value => value `div` 360
  | _ => 0
  end.

Definition rotation_in (evs : list event) : Z :=
  foldr (λ e acc, native_units e + acc) 0 evs.

(** The raw deltas of the jog calls of a run, summed. *)
Definition raw_delta (e : event) : Z :=
  match e with
  | ev_jog _ value => value
  | _ => 0
  end.

Definition raw_total (evs : list event) : Z :=
  foldr (λ e acc, raw_delta e + acc) 0 evs.

(** The factor of the jog mode active in [s] (0 when the mode has none). *)
Definition active_factor (s : Self) : Z :=
  default 0 (MackieHandler.JOG_SPEED_DIV_FACTOR !! jog_mode (obj s)).

Section rotation.
Variables CAM1 CAM2 CAM3 CAM4 CAM5 CAM6 CAM7 CAM8 CAM9 : Z.

(** The rotation a run gives out: every step handed to an encoder, times the
    factor of the mode active when the event was handled. *)
Fixpoint rotation_out (evs : list event) (y : Sys) : Z :=
  match evs with
  | [] => 0
  | e :: evs' =>
      match step CAM1 CAM2 CAM3 CAM4 CAM5 CAM6 CAM7 CAM8 CAM9 e y with
      | None => 0
      | Some y' =>
          let out := sent (handler_of CAM1 CAM2 CAM3 CAM4 CAM5 CAM6 CAM7 CAM8 CAM9 e (self y)) in
          foldr Z.add 0 (steps_handed_over out) * active_factor (self y)
          + rotation_out evs' y'
      end
  end.

End rotation.

(** The encoder [jog] hands its steps to. *)
Definition encoder_for (mode_key : SpeedEditorKey.t) (steps : Z) : M unit :=
  if decide (mode_key = SpeedEditorKey.SHTL)
  then MackieHandler.send_midi_nudge_msgs steps
  else MackieHandler.send_midi_jog_cc steps.

(** The quantizer as the specification words it, with both divisions
    truncating toward zero: the remainder it stores and the steps it emits
    ([None] when it emits nothing). *)
Definition jog_truncating (remainder raw_delta factor : Z) : Z * option Z :=
  let native_units := Z.quot raw_delta 360 in
  let remainder_total := remainder + native_units in
  let steps := Z.quot remainder_total factor in
  if decide (steps = 0) then (remainder_total, None)
  else (remainder_total - steps * factor, Some steps).

(** The ramp of the nudge burst as the specification words it. *)
Definition ramped (raw : Z) : Z :=
  if decide (raw > 5) then 5 + (raw - 5) * 5 else raw.

(** A sample session: hold IN, turn the wheel, switch to shuttle while still
    holding IN, turn further, let the repeat timer fire, release everything,
    receive a play status, and turn back. *)
Definition sample_session : list event :=
  [ ev_key [SpeedEditorKey.IN];
    ev_jog SpeedEditorJogMode.RELATIVE_2 (360 * 7);
    ev_key [SpeedEditorKey.IN; SpeedEditorKey.SHTL];
    ev_jog SpeedEditorJogMode.RELATIVE_2 (360 * 40);
    ev_timer;
    ev_key [];
    ev_receive (note_on 0x5E 127);
    ev_jog SpeedEditorJogMode.RELATIVE_2 (-360 * 3) ].

(** Where the sample session leaves the bridge (camera LEDs on bits 0 to 8). *)
Definition sample_final : Sys :=
  MkSys (MkSelf (ClassAttrs ∅)
                (InstanceAttrs true ∅ 511 true false false 4 SpeedEditorKey.SHTL)) 1.

(** A handler that believes ROLL is held while NUDGE is not among the
    modifiers. *)
Definition roll_held_unmarked : Self :=
  set_keys {[ SpeedEditorKey.ROLL ]} (self boot).

(** Two bridges in one interpreter. *)
Definition two_handlers : World :=
  (construct (construct class_created).1).1.

(** [h.key(keys_held)] for each pair, in order, as long as none raises; the
    world reached and the outcome of the last call made. *)
Fixpoint key_calls (cs : list (nat * list SpeedEditorKey.t)) (w : World)
    : option (World * (exn + unit)) :=
  match cs with
  | [] => Some (w, inr ())
  | (i, keys_held) :: cs' =>
      '(w', r) ← call i (MackieHandler.key keys_held) w;
      match outcome r with
      | inl e => Some (w', inl e)
      | inr _ => key_calls cs' w'
      end
  end.

(** The bridge after IN and ROLL went down together. *)
Definition roll_and_in_held : Sys :=
  MkSys (MkSelf (ClassAttrs {[ KeyModifiers.NUDGE ]})
                (InstanceAttrs true {[ SpeedEditorKey.IN; SpeedEditorKey.ROLL ]}
                               0 false false false 0 SpeedEditorKey.JOG)) 1.

(** ** Start-up: finding the MIDI ports *)

(** [RuntimeError(f"Device {device} not found in list {list}")] *)
Inductive startup_exn : Set :=
| RuntimeError (device : string) (names : list string).

(** [find_device_in_list]: [next(...)] takes the first name that starts with
    [device], [None] when there is none; [not full_device] holds for [None]
    and for the empty string. *)
Definition find_device_in_list (device : string) (names : list string)
    : startup_exn + string :=
  let full_device := List.find (String.prefix device) names in
  match full_device with
  | Some n =>
      if decide (n = EmptyString) then inl (RuntimeError device names) else inr n
  | None => inl (RuntimeError device names)
  end.

(** The two look-ups of [__init__]: the port to send on is found among the
    output names under the name [midi_in_device], the port to receive on among
    the input names under [midi_out_device]; the first failure ends
    [__init__]. *)
Definition midi_in_device : string := "mackieIn".
Definition midi_out_device : string := "mackieOut".

Definition find_ports (output_names input_names : list string)
    : startup_exn + (string * string) :=
  match find_device_in_list midi_in_device output_names with
  | inl e => inl e
  | inr out_name =>
      match find_device_in_list midi_out_device input_names with
      | inl e => inl e
      | inr in_name => inr (out_name, in_name)
      end
  end.

(** The instance attributes [__init__] leaves. *)
Definition fresh : instance_attrs :=
  InstanceAttrs false ∅ 0 false false false 0 SpeedEditorKey.JOG.

(** ** Frames: what a method leaves alone and what it may send *)

(** [proj] reads the same after as before. *)
Definition keeps {X} (proj : Self → X) (s : Self) (out : list Out) (s' : Self) : Prop :=
  proj s' = proj s.

(** Everything sent passes the test [P]. *)
Definition sends_only (P : Out → bool) (s : Self) (out : list Out) (s' : Self) : Prop :=
  forallb P out = true.

(** What the two jog encoders can send: their entry, a full-velocity note-on
    for one of the four nudge codes, a control change on the jog control with
    a 7-bit value. *)
Definition encoder_output (o : Out) : Prop :=
  match o with
  | enter_send_midi_nudge_msgs _ | enter_send_midi_jog_cc _ => True
  | midi_note_on note velocity =>
      velocity = 127 ∧
      note ∈ [MackieHandler.MCU_USER_A; MackieHandler.MCU_USER_B;
              MackieHandler.MCU_F1; MackieHandler.MCU_F2]
  | midi_control_change control value =>
      control = MackieHandler.MCU_JOG_CC ∧ 0 ≤ value < 128
  | _ => False
  end.

(** A message a MIDI port accepts from the bridge: a note-on with velocity
    127 and a 7-bit note, or a control change on 0x3c with a 7-bit value.
    Outputs that are not MIDI messages pass. *)
Definition midi_ok (o : Out) : bool :=
  match o with
  | midi_note_on note velocity =>
      (velocity =? 127) && (0 <=? note) && (note <? 128)
  | midi_control_change control value =>
      (control =? 0x3c) && (0 <=? value) && (value <? 128)
  | _ => true
  end.

Definition is_set_leds (o : Out) : bool :=
  match o with se_set_leds _ => true | _ => false end.

Definition is_midi (o : Out) : bool :=
  match o with midi_note_on _ _ | midi_control_change _ _ => true | _ => false end.

(** The attributes only the receive thread writes. *)
Definition status_side (s : Self) : bool * bool * bool * Z :=
  (play_state (obj s), zoom_mode (obj s), scrub_mode (obj s), leds (obj s)).

(** The attributes the receive thread never writes. *)
Definition input_side (s : Self)
    : class_attrs * gset SpeedEditorKey.t * Z * SpeedEditorKey.t * bool :=
  (cls s, keys (obj s), jog_unsent (obj s), jog_mode (obj s), zoom_timer_on (obj s)).

(** ** Zoom keys *)

(** [any(k in self.keys for k in self.ZOOM_KEYS)] *)
Definition zoom_held (s : Self) : bool :=
  existsb (λ k, bool_decide (k ∈ keys (obj s))) MackieHandler.ZOOM_KEYS.

(** The directional notes of the zoom keys held in [s], in the order
    [zoom_handle_keys] sends them. *)
Definition direction_notes (s : Self) : list Out :=
  (if bool_decide (SpeedEditorKey.IN ∈ keys (obj s))
   then [midi_note_on MackieHandler.MCU_RIGHT 127] else []) ++
  (if bool_decide (SpeedEditorKey.OUT ∈ keys (obj s))
   then [midi_note_on MackieHandler.MCU_LEFT 127] else []) ++
  (if bool_decide (SpeedEditorKey.TRIM_IN ∈ keys (obj s))
   then [midi_note_on MackieHandler.MCU_DOWN 127] else []) ++
  (if bool_decide (SpeedEditorKey.TRIM_OUT ∈ keys (obj s))
   then [midi_note_on MackieHandler.MCU_UP 127] else []).

(** Everything but the jog remainder. *)
Definition beside_remainder (s : Self)
    : class_attrs * gset SpeedEditorKey.t * SpeedEditorKey.t * bool
      * (bool * bool * bool * Z) :=
  (cls s, keys (obj s), jog_mode (obj s), zoom_timer_on (obj s), status_side s).

(** ** The modifier of the ROLL key *)

(** NUDGE is active exactly while ROLL is held. *)
Definition nudge_tracks_roll (s : Self) : Prop :=
  KeyModifiers.NUDGE ∈ modifiers (cls s) ↔ SpeedEditorKey.ROLL ∈ keys (obj s).

(** ** The panel as the handler last wrote it *)

(** The last argument of each of [se.set_leds], [se.set_jog_leds] and
    [se.set_jog_mode], [None] before the first call. *)
Record Panel : Type := MkPanel {
  panel_leds : option Z;
  panel_jog_leds : option SpeedEditorJogLed.t;
  panel_jog_mode : option SpeedEditorJogMode.t
}.

Definition never_written : Panel := MkPanel None None None.

Definition panel_write (p : Panel) (o : Out) : Panel :=
  match o with
  | se_set_leds mask => MkPanel (Some mask) (panel_jog_leds p) (panel_jog_mode p)
  | se_set_jog_leds led => MkPanel (panel_leds p) (Some led) (panel_jog_mode p)
  | se_set_jog_mode m => MkPanel (panel_leds p) (panel_jog_leds p) (Some m)
  | _ => p
  end.

Definition panel_after (out : list Out) (p : Panel) : Panel := foldl panel_write p out.

(** The panel shows the handler's LED mask and the ring LED and jog mode
    that [JOG] gives for the handler's jog mode. *)
Definition mirrors (p : Panel) (s : Self) : Prop :=
  panel_leds p = Some (leds (obj s)) ∧
  ∃ led mode, MackieHandler.JOG !! jog_mode (obj s) = Some (led, mode) ∧
              panel_jog_leds p = Some led ∧ panel_jog_mode p = Some mode.

Definition writes_through (s : Self) (out : list Out) (s' : Self) : Prop :=
  ∀ p, mirrors p s → mirrors (panel_after out p) s'.

Definition boot_outputs : list Out :=
  sent (MackieHandler.__init__ (MkSelf (ClassAttrs ∅) unbound)).

Section outputs.
Variables CAM1 CAM2 CAM3 CAM4 CAM5 CAM6 CAM7 CAM8 CAM9 : Z.

(** Everything a run sends, in order. *)
Fixpoint outputs (evs : list event) (y : Sys) : list Out :=
  match evs with
  | [] => []
  | e :: evs' =>
      match step CAM1 CAM2 CAM3 CAM4 CAM5 CAM6 CAM7 CAM8 CAM9 e y with
      | None => []
      | Some y' =>
          sent (handler_of CAM1 CAM2 CAM3 CAM4 CAM5 CAM6 CAM7 CAM8 CAM9 e (self y))
          ++ outputs evs' y'
      end
  end.

End outputs.

(** A run of jog calls only. *)
Definition is_jog (e : event) : bool :=
  match e with ev_jog _ _ => true | _ => false end.

(** A burst of jog calls after the sample session, and where it leaves the
    bridge. *)
Definition jog_burst_sample : list event :=
  [ ev_jog SpeedEditorJogMode.RELATIVE_2 (360 * 30);
    ev_jog SpeedEditorJogMode.RELATIVE_2 (-360 * 7);
    ev_jog SpeedEditorJogMode.RELATIVE_2 (360 * 4) ].

Definition jog_burst_final : Sys :=
  MkSys (MkSelf (ClassAttrs ∅)
                (InstanceAttrs true ∅ 511 true false false 11 SpeedEditorKey.SHTL)) 1.

(** * Properties *)

(** ** Running the monad *)

Lemma Res_eta {A} (r : Res A) : MkRes (outcome r) (final r) (sent r) = r.
Proof. by destruct r. Qed.

Lemma run_bind_ret {A B} (a : A) (f : A → M B) s : (mret a ≫= f) s = f a s.
Proof. unfold mbind, M_bind, mret, M_ret. cbn. apply Res_eta. Qed.

Lemma run_bind_get {B} (f : Self → M B) s : (get ≫= f) s = f s s.
Proof. unfold mbind, M_bind, get. cbn. apply Res_eta. Qed.

Lemma run_bind_modify {B} g (f : unit → M B) s : (modify g ≫= f) s = f () (g s).
Proof. unfold mbind, M_bind, modify. cbn. apply Res_eta. Qed.

Lemma run_bind_emit {B} o (f : unit → M B) s : (emit o ≫= f) s = after o (f () s).
Proof. reflexivity. Qed.

Lemma run_bind_raise {A B} e (f : A → M B) s : (raise e ≫= f) s = MkRes (inl e) s [].
Proof. reflexivity. Qed.

Lemma run_bind_assoc {A B C} (m : M A) (f : A → M B) (g : B → M C) s :
  ((m ≫= f) ≫= g) s = (m ≫= λ a, f a ≫= g) s.
Proof.
  unfold mbind, M_bind. cbn.
  destruct (outcome (m s)) as [e|a]; cbn; [done|].
  destruct (outcome (f a (final (m s)))) as [e|b]; cbn; [done|].
  by rewrite app_assoc.
Qed.

Lemma run_ret {A} (a : A) s : mret (M := M) a s = MkRes (inr a) s [].
Proof. reflexivity. Qed.

Lemma run_modify g s : modify g s = MkRes (inr ()) (g s) [].
Proof. reflexivity. Qed.

Lemma run_emit o s : emit o s = MkRes (inr ()) s [o].
Proof. reflexivity. Qed.

Lemma run_raise {A} e s : raise (A := A) e s = MkRes (inl e) s [].
Proof. reflexivity. Qed.

(** What a sequence does when its first part returns. *)
Lemma run_bind_returns {A B} (m : M A) (f : A → M B) s a :
  outcome (m s) = inr a →
  (m ≫= f) s =
  MkRes (outcome (f a (final (m s)))) (final (f a (final (m s))))
        (sent (m s) ++ sent (f a (final (m s)))).
Proof. intros H. unfold mbind, M_bind. cbn. by rewrite H. Qed.

(** ... and when it raises. *)
Lemma run_bind_raises {A B} (m : M A) (f : A → M B) s e :
  outcome (m s) = inl e →
  (m ≫= f) s = MkRes (inl e) (final (m s)) (sent (m s)).
Proof. intros H. unfold mbind, M_bind. cbn. by rewrite H. Qed.

Ltac run1 :=
  first [ rewrite run_bind_assoc | rewrite run_bind_ret | rewrite run_bind_get
        | rewrite run_bind_modify | rewrite run_bind_emit | rewrite run_bind_raise
        | rewrite run_ret | rewrite run_modify | rewrite run_emit | rewrite run_raise ].
Ltac run := repeat (run1; cbv beta).

(** ** The dictionaries, as functions *)

Lemma JOG_SPEED_DIV_FACTOR_lookup k :
  MackieHandler.JOG_SPEED_DIV_FACTOR !! k =
  match k with
  | SpeedEditorKey.SHTL => Some 20
  | SpeedEditorKey.JOG => Some 15
  | SpeedEditorKey.SCRL => Some 1
  | _ => None
  end.
Proof.
  unfold MackieHandler.JOG_SPEED_DIV_FACTOR.
  destruct k; try reflexivity.
  by rewrite !lookup_insert_ne, lookup_singleton_ne.
Qed.

Lemma JOG_lookup k :
  MackieHandler.JOG !! k =
  match k with
  | SpeedEditorKey.SHTL => Some (SpeedEditorJogLed.SHTL, SpeedEditorJogMode.RELATIVE_2)
  | SpeedEditorKey.JOG => Some (SpeedEditorJogLed.JOG, SpeedEditorJogMode.RELATIVE_2)
  | SpeedEditorKey.SCRL => Some (SpeedEditorJogLed.SCRL, SpeedEditorJogMode.RELATIVE_2)
  | _ => None
  end.
Proof.
  unfold MackieHandler.JOG.
  destruct k; try reflexivity.
  by rewrite !lookup_insert_ne, lookup_singleton_ne.
Qed.

Lemma MODIFIER_KEY_MAP_lookup k :
  MackieHandler.MODIFIER_KEY_MAP !! k =
  match k with
  | SpeedEditorKey.ROLL => Some KeyModifiers.NUDGE
  | _ => None
  end.
Proof.
  unfold MackieHandler.MODIFIER_KEY_MAP.
  destruct k; try reflexivity.
  by rewrite lookup_singleton_ne.
Qed.

Lemma speed_div_factor_pos k f :
  MackieHandler.JOG_SPEED_DIV_FACTOR !! k = Some f → 0 < f.
Proof. rewrite JOG_SPEED_DIV_FACTOR_lookup. destruct k; intros [= <-]; lia. Qed.

(** ** The encoders *)

Section encoders.
Import MackieHandler.

Lemma send_midi_jog_cc_loop_step shift a :
  send_midi_jog_cc_loop shift a =
  if decide (a > 0) then
    let abs_val := if decide (a > 63) then 63 else a in
    let sign := Z.shiftl (if decide (shift < 0) then 1 else 0) 6 in
    let val := Z.lor abs_val sign in
    emit (midi_control_change MCU_JOG_CC val) ;;
    send_midi_jog_cc_loop shift (a - abs_val)
  else mret ().
Proof. simp send_midi_jog_cc_loop. by destruct (decide (a > 0)). Qed.

Lemma chunk_value c (b : bool) :
  1 ≤ c ≤ 63 →
  let v := Z.lor c (Z.shiftl (if b then 1 else 0) 6) in
  cc_magnitude v = c ∧ cc_sign v = b ∧ 0 ≤ v < 128.
Proof.
  intros Hc.
  assert (Hall : forallb (λ c, forallb (λ b : bool,
            let v := Z.lor c (Z.shiftl (if b then 1 else 0) 6) in
            bool_decide (cc_magnitude v = c ∧ cc_sign v = b ∧ 0 ≤ v < 128))
            [true; false]) (seqZ 1 63) = true) by (vm_compute; reflexivity).
  rewrite forallb_forall in Hall.
  specialize (Hall c). rewrite forallb_forall in Hall.
  assert (Hin : In c (seqZ 1 63)).
  { apply list_elem_of_In, elem_of_seqZ. lia. }
  assert (Hb : In b [true; false]) by (destruct b; cbn; tauto).
  specialize (Hall Hin b Hb). cbv zeta in Hall.
  by apply bool_decide_eq_true in Hall.
Qed.

Lemma send_midi_jog_cc_loop_spec shift (n : nat) :
  ∀ a s, 0 ≤ a → (Z.to_nat a ≤ n)%nat →
  ∃ values,
    send_midi_jog_cc_loop shift a s
      = MkRes (inr ()) s (map (midi_control_change MCU_JOG_CC) values) ∧
    Z.of_nat (length values) = (a + 62) `div` 63 ∧
    Forall (chunk_ok (bool_decide (shift < 0))) values ∧
    sum_magnitudes values = a.
Proof.
  induction n as [|n IH]; intros a s Ha Hn.
  - assert (a = 0) as -> by lia. exists [].
    rewrite send_midi_jog_cc_loop_step. cbn. by repeat split.
  - rewrite send_midi_jog_cc_loop_step.
    destruct (decide (a > 0)) as [Hpos|Hz].
    2:{ assert (a = 0) as -> by lia. exists []. by repeat split. }
    cbv zeta. run.
    set (c := if decide (a > 63) then 63 else a).
    assert (Hc : 1 ≤ c ≤ 63) by (subst c; destruct (decide (a > 63)); lia).
    assert (Hca : c ≤ a) by (subst c; destruct (decide (a > 63)); lia).
    destruct (IH (a - c) s) as (values & Hrun & Hlen & Hall & Hsum); [lia..|].
    rewrite Hrun.
    set (v := Z.lor c _).
    assert (Hv : cc_magnitude v = c ∧ cc_sign v = bool_decide (shift < 0) ∧ 0 ≤ v < 128).
    { pose proof (chunk_value c (bool_decide (shift < 0)) Hc) as H.
      subst v. cbv zeta in H.
      replace (if bool_decide (shift < 0) then 1 else 0)
        with (if decide (shift < 0) then 1 else 0) in H; [done|].
      clear. case_bool_decide; case_decide; done. }
    exists (v :: values). repeat split.
    + cbn [length]. rewrite Nat2Z.inj_succ, Hlen. subst c.
      destruct (decide (a > 63)).
      * replace (a + 62) with ((a - 63 + 62) + 1 * 63) by lia.
        rewrite Z.div_add by lia. lia.
      * replace (a - a + 62) with 62 by lia.
        assert ((a + 62) `div` 63 = 1) as ->; [|done].
        symmetry. apply (Z.div_unique _ _ _ (a - 1)); lia.
    + constructor; [|done]. unfold chunk_ok. destruct Hv as (-> & -> & ?). done.
    + unfold sum_magnitudes in *. cbn [foldr]. rewrite Hsum. destruct Hv as (-> & _). lia.
Qed.

Lemma for_each_emit {A} (l : list A) o s :
  for_each l (λ _, emit o) s = MkRes (inr ()) s (replicate (length l) o).
Proof.
  induction l as [|x l IH]; [done|].
  cbn [for_each length replicate]. run. by rewrite IH.
Qed.

Lemma steps_handed_over_control_changes c values :
  steps_handed_over (map (midi_control_change c) values) = [].
Proof. by induction values. Qed.

Lemma steps_handed_over_notes n note velocity :
  steps_handed_over (replicate n (midi_note_on note velocity)) = [].
Proof. by induction n. Qed.

Lemma send_midi_jog_cc_spec shift s :
  ∃ values,
    send_midi_jog_cc shift s
      = MkRes (inr ()) s
          (enter_send_midi_jog_cc shift :: map (midi_control_change MCU_JOG_CC) values) ∧
    Z.of_nat (length values) = (Z.abs shift + 62) `div` 63 ∧
    Forall (chunk_ok (bool_decide (shift < 0))) values ∧
    sum_magnitudes values = Z.abs shift.
Proof.
  destruct (send_midi_jog_cc_loop_spec shift (Z.to_nat (Z.abs shift)) (Z.abs shift) s)
    as (values & Hrun & ?); [lia..|].
  exists values. split; [|done].
  unfold send_midi_jog_cc. run. cbv zeta. by rewrite Hrun.
Qed.

Lemma send_midi_nudge_msgs_spec shift s :
  send_midi_nudge_msgs shift s
    = MkRes (inr ()) s
        (enter_send_midi_nudge_msgs shift ::
         replicate (Z.to_nat (ramped (Z.abs shift)))
           (midi_note_on
              (if decide (KeyModifiers.NUDGE ∈ modifiers (cls s))
               then (if decide (shift < 0) then MCU_USER_A else MCU_USER_B)
               else (if decide (shift < 0) then MCU_F1 else MCU_F2)) 127)).
Proof.
  unfold send_midi_nudge_msgs, send_midi_note. run. cbv zeta.
  rewrite for_each_emit, length_seqZ. unfold after. cbn.
  do 3 f_equal. unfold ramped, RAMP_THRESHOLD, RAMP_FACTOR.
  destruct (decide (Z.abs shift > 5)); lia.
Qed.

Lemma encoder_for_spec k steps s :
  ∃ msgs,
    encoder_for k steps s = MkRes (inr ()) s msgs ∧
    steps_handed_over msgs = [steps].
Proof.
  unfold encoder_for. destruct (decide (k = SpeedEditorKey.SHTL)).
  - eexists. split; [apply send_midi_nudge_msgs_spec|].
    cbn. by rewrite steps_handed_over_notes.
  - destruct (send_midi_jog_cc_spec steps s) as (values & -> & _).
    eexists. split; [done|]. cbn. by rewrite steps_handed_over_control_changes.
Qed.

Lemma jog_run s mode d f :
  JOG_SPEED_DIV_FACTOR !! jog_mode (obj s) = Some f →
  let total := jog_unsent (obj s) + d `div` 360 in
  let steps := total `div` f in
  jog mode d s =
  if decide (steps = 0) then MkRes (inr ()) (set_jog_unsent total s) []
  else encoder_for (jog_mode (obj s)) steps (set_jog_unsent (total - steps * f) s).
Proof.
  intros Hf total steps. unfold jog, subscript. run.
  cbn. rewrite Hf. run. cbn. fold total. fold steps.
  destruct (decide (steps = 0)); run; [done|]. cbn. unfold encoder_for.
  destruct s as [c o]; destruct o; cbn in *. reflexivity.
Qed.

End encoders.

(** C6.  For every signed step count (zero included, with no message), the
    jog control-change encoder sends ceiling(|s| / 63) = (|s| + 62) div 63
    control changes on control 0x3c, returns normally and leaves the
    attributes alone; every value is below 128, carries a magnitude between 1
    and 63 in bits 0 to 5 and has bit 6 set exactly when s is negative; the
    magnitudes add up to |s|.  A step count of 130 gives the values 63, 63, 4,
    all with the sign bit clear. *)
Theorem jog_cc_chunking (shift : Z) (s : Self) :
  (∃ values,
     MackieHandler.send_midi_jog_cc shift s
       = MkRes (inr ()) s
           (enter_send_midi_jog_cc shift :: map (midi_control_change 0x3c) values) ∧
     Z.of_nat (length values) = (Z.abs shift + 62) `div` 63 ∧
     Forall (λ v, 1 ≤ cc_magnitude v ≤ 63 ∧
                  cc_sign v = bool_decide (shift < 0) ∧
                  0 ≤ v < 128) values ∧
     sum_magnitudes values = Z.abs shift) ∧
  sent (MackieHandler.send_midi_jog_cc 130 s)
    = [enter_send_midi_jog_cc 130; midi_control_change 0x3c 63;
       midi_control_change 0x3c 63; midi_control_change 0x3c 4] ∧
  cc_sign 63 = false ∧ cc_sign 4 = false.
Proof.
  split; [apply send_midi_jog_cc_spec|].
  split; [|done].
  unfold MackieHandler.send_midi_jog_cc. run.
  do 3 (rewrite send_midi_jog_cc_loop_step; cbn; run).
  rewrite send_midi_jog_cc_loop_step. done.
Qed.

(** C7.  For every signed step count, the nudge-burst encoder sends exactly
    ramped(|s|) note-on messages, where ramped(r) = 5 + (r - 5) * 5 when r > 5
    and r otherwise; every one carries the code chosen by the sign of s and by
    NUDGE being among the modifiers: MCU_USER_A / MCU_USER_B (negative /
    positive) with NUDGE, MCU_F1 / MCU_F2 without.  Magnitude 8 gives 20
    messages and magnitude 3 gives 3. *)
Theorem nudge_burst (shift : Z) (s : Self) :
  let code :=
    if decide (KeyModifiers.NUDGE ∈ modifiers (cls s))
    then (if decide (shift < 0) then MackieHandler.MCU_USER_A else MackieHandler.MCU_USER_B)
    else (if decide (shift < 0) then MackieHandler.MCU_F1 else MackieHandler.MCU_F2) in
  MackieHandler.send_midi_nudge_msgs shift s
    = MkRes (inr ()) s
        (enter_send_midi_nudge_msgs shift ::
         replicate (Z.to_nat (ramped (Z.abs shift))) (midi_note_on code 127)) ∧
  ramped 8 = 20 ∧ ramped 3 = 3.
Proof. split; [apply send_midi_nudge_msgs_spec|done]. Qed.

(** ** The jog quantizer *)

Lemma floor_is_truncation d r f :
  0 < f → 0 ≤ d → 0 ≤ r →
  d `div` 360 = Z.quot d 360 ∧ (r + d `div` 360) `div` f = Z.quot (r + d `div` 360) f.
Proof.
  intros Hf Hd Hr.
  assert (0 ≤ d `div` 360) by (apply Z.div_pos; lia).
  split; symmetry; apply Z.quot_div_nonneg; lia.
Qed.

(** C1, as the code has it.  With [f] the speed-division factor of the active
    jog mode, a call of [jog] returns normally; it computes the native units as
    the floor division of the raw delta by 360, adds them to [jog_unsent], and
    computes the steps as the floor division of that sum by [f].  When the
    steps are not zero, [jog_unsent] becomes the sum minus steps times [f] and
    exactly the steps are handed to the encoder of the mode; when they are
    zero nothing is sent and [jog_unsent] holds the sum.  For a raw delta and a
    stored remainder that are not negative, both floor divisions agree with
    truncation toward zero. *)
Theorem jog_quantizer_floor (s : Self) (mode : SpeedEditorJogMode.t) (d f : Z) :
  MackieHandler.JOG_SPEED_DIV_FACTOR !! jog_mode (obj s) = Some f →
  let total := jog_unsent (obj s) + d `div` 360 in
  let steps := total `div` f in
  let r := MackieHandler.jog mode d s in
  outcome r = inr () ∧
  (steps ≠ 0 →
     final r = set_jog_unsent (total - steps * f) s ∧
     steps_handed_over (sent r) = [steps] ∧
     sent r = sent (encoder_for (jog_mode (obj s)) steps (final r))) ∧
  (steps = 0 → final r = set_jog_unsent total s ∧ sent r = []) ∧
  (0 ≤ d → 0 ≤ jog_unsent (obj s) →
     d `div` 360 = Z.quot d 360 ∧ steps = Z.quot total f).
Proof.
  intros Hf total steps r. subst r.
  rewrite (jog_run s mode d f Hf). fold total. fold steps.
  pose proof (speed_div_factor_pos _ _ Hf) as Hpos.
  destruct (decide (steps = 0)) as [Hz|Hnz].
  - split; [done|]. split; [done|]. split; [done|].
    intros Hd Hr. by apply floor_is_truncation.
  - destruct (encoder_for_spec (jog_mode (obj s)) steps
                (set_jog_unsent (total - steps * f) s)) as (msgs & Hrun & Hsteps).
    rewrite Hrun. cbn [outcome final sent]. rewrite Hrun. cbn [sent].
    split; [done|]. split; [done|]. split; [done|].
    intros Hd Hr. by apply floor_is_truncation.
Qed.

Lemma jog_quantizer_floor_witness :
  let s := self boot in
  let r := MackieHandler.jog SpeedEditorJogMode.RELATIVE_2 (360 * 7) s in
  final r = set_jog_unsent 7 s ∧ sent r = [].
Proof.
  intros s r.
  exact (proj1 (proj2 (proj2
    (jog_quantizer_floor s SpeedEditorJogMode.RELATIVE_2 (360 * 7) 15 eq_refl))) eq_refl).
Defined.

(** C1 as stated fails: one native unit backwards in JOG mode (raw delta -360,
    remainder 0, factor 15).  Truncation gives 0 steps, nothing emitted and a
    remainder of -1; the code floors, hands over the step -1, sends one control
    change with the sign bit and magnitude 1, and stores the remainder 14. *)
Lemma jog_truncation_counterexample :
  jog_truncating 0 (-360) 15 = (-1, None) ∧
  let r := MackieHandler.jog SpeedEditorJogMode.RELATIVE_2 (-360) (self boot) in
  jog_mode (obj (self boot)) = SpeedEditorKey.JOG ∧
  jog_unsent (obj (self boot)) = 0 ∧
  outcome r = inr () ∧
  jog_unsent (obj (final r)) = 14 ∧
  steps_handed_over (sent r) = [-1] ∧
  sent r = [enter_send_midi_jog_cc (-1); midi_control_change 0x3c 65].
Proof. vm_compute. repeat split. Qed.

(** ** Relations every step of a method respects *)

Section respects.
Context (R : Self → list Out → Self → Prop).
Hypothesis R_refl : ∀ s, R s [] s.
Hypothesis R_trans : ∀ s1 o1 s2 o2 s3, R s1 o1 s2 → R s2 o2 s3 → R s1 (o1 ++ o2) s3.

Lemma respects_ret {A} (a : A) : respects R (mret a).
Proof. intros s. apply R_refl. Qed.

Lemma respects_get : respects R get.
Proof. intros s. apply R_refl. Qed.

Lemma respects_raise {A} e : respects R (raise (A := A) e).
Proof. intros s. apply R_refl. Qed.

Lemma respects_modify f : (∀ s, R s [] (f s)) → respects R (modify f).
Proof. intros H s. apply H. Qed.

Lemma respects_emit o : (∀ s, R s [o] s) → respects R (emit o).
Proof. intros H s. apply H. Qed.

Lemma respects_bind {A B} (m : M A) (f : A → M B) :
  respects R m → (∀ a, respects R (f a)) → respects R (m ≫= f).
Proof.
  intros Hm Hf s. unfold mbind, M_bind.
  destruct (outcome (m s)) as [e|a] eqn:Ho; cbn; [apply Hm|].
  eapply R_trans; [apply Hm|apply Hf].
Qed.

Lemma respects_when b m : respects R m → respects R (when b m).
Proof. intros Hm. destruct b; [done|apply respects_ret]. Qed.

Lemma respects_for_each {A} (l : list A) body :
  (∀ x, respects R (body x)) → respects R (for_each l body).
Proof.
  intros Hb. induction l as [|x l IH]; [apply respects_ret|].
  cbn [for_each]. apply respects_bind; [apply Hb|done].
Qed.

End respects.

Lemma timers_started_app o1 o2 :
  timers_started (o1 ++ o2) = (timers_started o1 + timers_started o2)%nat.
Proof. unfold timers_started. by rewrite filter_app, length_app. Qed.

Lemma steps_handed_over_app o1 o2 :
  steps_handed_over (o1 ++ o2) = steps_handed_over o1 ++ steps_handed_over o2.
Proof. unfold steps_handed_over. apply omap_app. Qed.

Lemma quiet_refl s : quiet s [] s.
Proof. unfold quiet, timers_started. cbn. split_and!; [lia|done..]. Qed.

Lemma quiet_trans s1 o1 s2 o2 s3 :
  quiet s1 o1 s2 → quiet s2 o2 s3 → quiet s1 (o1 ++ o2) s3.
Proof.
  intros (Ht1 & Hj1 & Hs1 & Hm1) (Ht2 & Hj2 & Hs2 & Hm2).
  unfold quiet. rewrite timers_started_app, steps_handed_over_app, Hs1, Hs2.
  split_and!; [lia|congruence|done|tauto].
Qed.

Lemma quiet_emit o : plain o = true → respects quiet (emit o).
Proof.
  intros Ho s. cbn. unfold quiet, timers_started.
  split_and!; [|done| |done]; destruct o; try done; cbn; lia.
Qed.

Lemma quiet_modify f : benign f → respects quiet (modify f).
Proof.
  intros Hf s. destruct (Hf s) as (Ht & Hj & Hm). cbn.
  unfold quiet, armed, timers_started. rewrite Ht. cbn. split_and!; [lia|done..].
Qed.

Create HintDb quiet.

Ltac quiet_step :=
  first
    [ solve [auto 1 with quiet nocore]
    | apply (respects_bind quiet quiet_trans); [|intros ?]
    | apply (respects_ret quiet quiet_refl)
    | apply (respects_get quiet quiet_refl)
    | apply (respects_raise quiet quiet_refl)
    | apply (respects_when quiet quiet_refl)
    | apply (respects_for_each quiet quiet_refl quiet_trans); intros ?
    | apply quiet_emit; reflexivity
    | apply quiet_modify; by intros [? []] ].

Section quiet_methods.
Import MackieHandler.

Lemma set_jog_mode_for_key_quiet k : respects quiet (_set_jog_mode_for_key k).
Proof.
  unfold _set_jog_mode_for_key. rewrite JOG_lookup.
  destruct k; repeat quiet_step;
    apply quiet_modify; intros [? []]; cbn; split_and!; try done;
    intros _; unfold mode_known; cbn; rewrite JOG_SPEED_DIV_FACTOR_lookup; by eexists.
Qed.

Lemma set_zoom_timer_quiet : respects quiet set_zoom_timer.
Proof.
  intros s. unfold set_zoom_timer. run. unfold when.
  destruct s as [c []]. cbn. destruct zoom_timer_on0; cbn; run; cbn.
  - apply quiet_refl.
  - unfold quiet, armed, timers_started; cbn. split_and!; done.
Qed.

Hint Resolve set_jog_mode_for_key_quiet set_zoom_timer_quiet : quiet.

Lemma zoom_handle_keys_quiet : respects quiet zoom_handle_keys.
Proof.
  unfold zoom_handle_keys. quiet_step; [quiet_step|]. cbv zeta.
  quiet_step; [destruct (existsb _ _)|]; repeat quiet_step.
Qed.

Hint Resolve zoom_handle_keys_quiet : quiet.

Lemma modifier_pressed_quiet k : respects quiet (modifier_pressed k).
Proof.
  unfold modifier_pressed. cbv zeta. destruct (MODIFIER_KEY_MAP !! k); repeat quiet_step.
Qed.

Lemma modifier_released_quiet k : respects quiet (modifier_released k).
Proof.
  unfold modifier_released. cbv zeta. destruct (MODIFIER_KEY_MAP !! k); repeat quiet_step.
  case_decide; repeat quiet_step.
Qed.

Hint Resolve modifier_pressed_quiet modifier_released_quiet : quiet.

Lemma key_pressed_quiet k : respects quiet (key_pressed k).
Proof.
  unfold key_pressed. repeat quiet_step.
  destruct (play_state _); repeat quiet_step.
Qed.

Lemma key_quiet ks : respects quiet (key ks).
Proof.
  unfold key. cbv zeta. pose proof key_pressed_quiet. repeat quiet_step.
Qed.

Lemma receive_thread_body_quiet c1 c2 c3 c4 c5 c6 c7 c8 c9 msg :
  respects quiet (receive_thread_body c1 c2 c3 c4 c5 c6 c7 c8 c9 msg).
Proof. unfold receive_thread_body. destruct msg; repeat quiet_step. Qed.

End quiet_methods.

(** ** The modifier tracker *)

Section modifier_tracker.
Import MackieHandler.

Lemma key_released_plain k s :
  MODIFIER_KEY_MAP !! k = None →
  key_released k s = MkRes (inr ()) s [enter_key_released k].
Proof.
  intros Hk. unfold key_released, modifier_released. run. cbv zeta. by rewrite Hk.
Qed.

Lemma modifier_released_run k m s :
  MODIFIER_KEY_MAP !! k = Some m →
  modifier_released k s =
  if decide (m ∈ modifiers (cls s))
  then MkRes (inr ()) (set_modifiers (modifiers (cls s) ∖ {[ m ]}) s) []
  else MkRes (inl KeyError) s [].
Proof.
  intros Hk. unfold modifier_released. cbv zeta. rewrite Hk.
  destruct m. cbn [truthy KeyModifiers.value].
  rewrite bool_decide_eq_true_2 by done. cbn [when]. run.
  by destruct (decide _).
Qed.

Lemma key_released_run k s :
  key_released k s = after (enter_key_released k) (modifier_released k s).
Proof. unfold key_released. run. unfold after. by run. Qed.

Lemma release_loop_raises k m l s :
  MODIFIER_KEY_MAP !! k = Some m → k ∈ l → m ∉ modifiers (cls s) →
  let r := for_each l key_released s in
  outcome r = inl KeyError ∧ final r = s.
Proof.
  intros Hk Hin Hm. cbv zeta.
  induction l as [|x l IH]; [by apply not_elem_of_nil in Hin|].
  cbn [for_each]. destruct (MODIFIER_KEY_MAP !! x) as [m'|] eqn:Hx.
  - assert (Hkr : key_released x s = MkRes (inl KeyError) s [enter_key_released x]).
    { rewrite key_released_run, (modifier_released_run x m' s Hx).
      destruct m, m'. by rewrite decide_False. }
    rewrite (run_bind_raises (key_released x) _ s KeyError); by rewrite Hkr.
  - apply elem_of_cons in Hin as [->|Hin]; [congruence|].
    rewrite (run_bind_returns (key_released x) _ s ());
      rewrite (key_released_plain x s Hx); [|done].
    cbn [final sent outcome]. by apply IH.
Qed.

End modifier_tracker.

(** ** The edge tracker *)

Section returns.

Lemma returns_ret {A} (a : A) : returns (mret a).
Proof. intros s. by exists a. Qed.

Lemma returns_get : returns get.
Proof. intros s. by exists s. Qed.

Lemma returns_modify f : returns (modify f).
Proof. intros s. by exists (). Qed.

Lemma returns_emit o : returns (emit o).
Proof. intros s. by exists (). Qed.

Lemma returns_bind {A B} (m : M A) (f : A → M B) :
  returns m → (∀ a, returns (f a)) → returns (m ≫= f).
Proof.
  intros Hm Hf s. destruct (Hm s) as [a Ha].
  rewrite (run_bind_returns m f s a Ha). cbn. apply Hf.
Qed.

Lemma returns_when b m : returns m → returns (when b m).
Proof. intros Hm. destruct b; [done|apply returns_ret]. Qed.

Lemma returns_for_each {A} (l : list A) body :
  (∀ x, returns (body x)) → returns (for_each l body).
Proof.
  intros Hb. induction l as [|x l IH]; [apply returns_ret|].
  cbn [for_each]. apply returns_bind; [apply Hb|done].
Qed.

End returns.

Ltac returns_step :=
  first
    [ apply returns_bind; [|intros ?]
    | apply returns_ret
    | apply returns_get
    | apply returns_modify
    | apply returns_emit
    | apply returns_when
    | apply returns_for_each; intros ? ].

Lemma key_edges_app o1 o2 : key_edges (o1 ++ o2) = key_edges o1 ++ key_edges o2.
Proof. unfold key_edges. apply filter_app. Qed.

Lemma key_edges_released (l : list SpeedEditorKey.t) :
  key_edges (enter_key_released <$> l) = enter_key_released <$> l.
Proof.
  induction l as [|x l IH]; [done|].
  unfold key_edges in *. cbn [fmap list_fmap].
  rewrite filter_cons_True by done. by rewrite IH.
Qed.

Lemma grows_refl s : grows s [] s.
Proof. by split_and!. Qed.

Lemma grows_trans s1 o1 s2 o2 s3 :
  grows s1 o1 s2 → grows s2 o2 s3 → grows s1 (o1 ++ o2) s3.
Proof.
  intros (Hk1 & Hm1 & He1) (Hk2 & Hm2 & He2). unfold grows.
  rewrite key_edges_app, He1, He2. split_and!; [congruence|set_solver|done].
Qed.

Lemma grows_emit o : is_key_edge o = false → respects grows (emit o).
Proof.
  intros Ho s. unfold grows. cbn [emit sent final]. split_and!; [done..|].
  unfold key_edges. rewrite filter_cons_False; [done|]. rewrite Ho. by intros [].
Qed.

Lemma grows_modify f :
  (∀ s, keys (obj (f s)) = keys (obj s) ∧ modifiers (cls s) ⊆ modifiers (cls (f s))) →
  respects grows (modify f).
Proof. intros Hf s. destruct (Hf s). by split_and!. Qed.

Create HintDb grows.

Ltac grows_step :=
  first
    [ solve [auto 1 with grows nocore]
    | apply (respects_bind grows grows_trans); [|intros ?]
    | apply (respects_ret grows grows_refl)
    | apply (respects_get grows grows_refl)
    | apply (respects_raise grows grows_refl)
    | apply (respects_when grows grows_refl)
    | apply (respects_for_each grows grows_refl grows_trans); intros ?
    | apply grows_emit; reflexivity
    | apply grows_modify; intros [[?] []]; cbn; split; [done|set_solver] ].

Section edge_tracker.
Import MackieHandler.

Lemma set_jog_mode_for_key_returns k : returns (_set_jog_mode_for_key k).
Proof.
  unfold _set_jog_mode_for_key. destruct (JOG !! k) as [[]|]; repeat returns_step.
Qed.

Lemma modifier_pressed_returns k : returns (modifier_pressed k).
Proof.
  unfold modifier_pressed. cbv zeta. destruct (MODIFIER_KEY_MAP !! k); repeat returns_step.
Qed.

Lemma zoom_handle_keys_returns : returns zoom_handle_keys.
Proof.
  unfold zoom_handle_keys. returns_step; [returns_step|]. cbv zeta.
  returns_step; [destruct (existsb _ _)|]; repeat returns_step.
Qed.

Lemma key_pressed_returns k : returns (key_pressed k).
Proof.
  unfold key_pressed.
  pose proof (set_jog_mode_for_key_returns k).
  pose proof (modifier_pressed_returns k).
  pose proof zoom_handle_keys_returns.
  repeat (first [assumption | returns_step]).
  destruct (play_state _); repeat returns_step.
Qed.

Lemma set_jog_mode_for_key_grows k : respects grows (_set_jog_mode_for_key k).
Proof.
  unfold _set_jog_mode_for_key. destruct (JOG !! k) as [[]|]; repeat grows_step.
Qed.

Lemma modifier_pressed_grows k : respects grows (modifier_pressed k).
Proof.
  intros s. unfold modifier_pressed. cbv zeta.
  destruct (MODIFIER_KEY_MAP !! k) as [[]|]; [|apply grows_refl].
  cbn [truthy KeyModifiers.value]. rewrite bool_decide_eq_true_2 by done.
  cbn [when]. run. cbn. unfold grows. cbn. split_and!; [done|set_solver|done].
Qed.

Lemma zoom_handle_keys_grows : respects grows zoom_handle_keys.
Proof.
  unfold zoom_handle_keys. grows_step; [grows_step|]. cbv zeta.
  grows_step; [destruct (existsb _ _)|]; repeat grows_step.
Qed.

Hint Resolve set_jog_mode_for_key_grows modifier_pressed_grows zoom_handle_keys_grows : grows.

Lemma receive_thread_body_grows c1 c2 c3 c4 c5 c6 c7 c8 c9 msg :
  respects grows (receive_thread_body c1 c2 c3 c4 c5 c6 c7 c8 c9 msg).
Proof. unfold receive_thread_body. destruct msg; repeat grows_step. Qed.

(** The part of [key_pressed] after its entry. *)
Lemma key_pressed_body k s :
  ∃ r, key_pressed k s = after (enter_key_pressed k) r ∧
       grows s (sent r) (final r).
Proof.
  unfold key_pressed. rewrite run_bind_emit. eexists. split; [reflexivity|].
  cbv beta.
  match goal with |- grows s (sent (?m s)) _ => cut (respects grows m); [by intros H|] end.
  repeat grows_step. destruct (play_state _); repeat grows_step.
Qed.

Lemma key_pressed_modifier k m s :
  MODIFIER_KEY_MAP !! k = Some m →
  key_pressed k s
    = MkRes (inr ()) (set_modifiers (modifiers (cls s) ∪ {[ m ]}) s) [enter_key_pressed k].
Proof.
  rewrite MODIFIER_KEY_MAP_lookup. destruct k; intros [= <-].
  unfold key_pressed, _set_jog_mode_for_key, modifier_pressed.
  rewrite JOG_lookup, MODIFIER_KEY_MAP_lookup. cbv zeta.
  cbn [truthy KeyModifiers.value]. rewrite (bool_decide_eq_true_2 (1 ≠ 0)) by done.
  rewrite !(bool_decide_eq_false_2 (SpeedEditorKey.ROLL = _)) by done.
  rewrite (bool_decide_eq_false_2 (SpeedEditorKey.ROLL ∈ ZOOM_KEYS))
    by (unfold ZOOM_KEYS; rewrite !elem_of_cons, elem_of_nil; naive_solver).
  cbn [when]. run. reflexivity.
Qed.

Lemma key_pressed_run k s :
  let r := key_pressed k s in
  outcome r = inr () ∧
  key_edges (sent r) = [enter_key_pressed k] ∧
  keys (obj (final r)) = keys (obj s) ∧
  modifiers (cls s) ⊆ modifiers (cls (final r)) ∧
  (∀ m, MODIFIER_KEY_MAP !! k = Some m → m ∈ modifiers (cls (final r))).
Proof.
  cbv zeta. destruct (key_pressed_returns k s) as [[] Ho].
  destruct (key_pressed_body k s) as (r & Hr & Hk & Hm & He).
  split; [done|].
  assert (Hadd : ∀ m, MODIFIER_KEY_MAP !! k = Some m →
                      m ∈ modifiers (cls (final (key_pressed k s)))).
  { intros m Hkm. rewrite (key_pressed_modifier k m s Hkm). cbn. set_solver. }
  rewrite Hr in *. cbn [after sent final] in *.
  split_and!; try done.
  unfold key_edges in *. rewrite filter_cons_True by done. by rewrite He.
Qed.

Lemma press_loop l : ∀ s,
  let r := for_each l key_pressed s in
  outcome r = inr () ∧
  key_edges (sent r) = enter_key_pressed <$> l ∧
  keys (obj (final r)) = keys (obj s) ∧
  modifiers (cls s) ⊆ modifiers (cls (final r)) ∧
  (∀ k m, k ∈ l → MODIFIER_KEY_MAP !! k = Some m → m ∈ modifiers (cls (final r))).
Proof.
  induction l as [|x l IH]; intros s; cbv zeta.
  - cbn. split_and!; try done. intros k m Hk. by apply not_elem_of_nil in Hk.
  - cbn [for_each].
    destruct (key_pressed_run x s) as (Ho & He & Hk & Hm & Hx).
    rewrite (run_bind_returns (key_pressed x) _ s () Ho). cbn [outcome final sent].
    destruct (IH (final (key_pressed x s))) as (Ho' & He' & Hk' & Hm' & Hx').
    split_and!.
    + done.
    + rewrite key_edges_app, He, He'. done.
    + congruence.
    + set_solver.
    + intros k m Hin Hkm. apply elem_of_cons in Hin as [->|Hin].
      * apply Hm', (Hx m Hkm).
      * by apply (Hx' k m).
Qed.

Lemma release_loop l : ∀ s,
  NoDup l →
  (∀ k m, k ∈ l → MODIFIER_KEY_MAP !! k = Some m → m ∈ modifiers (cls s)) →
  let r := for_each l key_released s in
  outcome r = inr () ∧
  sent r = enter_key_released <$> l ∧
  obj (final r) = obj s ∧
  modifiers (cls (final r)) ⊆ modifiers (cls s) ∧
  ((∀ k, k ∈ l → MODIFIER_KEY_MAP !! k = None) → final r = s).
Proof.
  induction l as [|x l IH]; intros s Hnd Hheld; cbv zeta.
  - cbn. by split_and!.
  - apply NoDup_cons in Hnd as [Hx Hnd]. cbn [for_each].
    destruct (MODIFIER_KEY_MAP !! x) as [m|] eqn:Hkm.
    + assert (Hm : m ∈ modifiers (cls s)) by (apply (Hheld x m); [left|done]).
      assert (Hkr : key_released x s
                = MkRes (inr ()) (set_modifiers (modifiers (cls s) ∖ {[ m ]}) s)
                        [enter_key_released x]).
      { rewrite key_released_run, (modifier_released_run x m s Hkm).
        by rewrite decide_True. }
      rewrite (run_bind_returns (key_released x) _ s ()) by (by rewrite Hkr).
      rewrite Hkr. cbn [outcome final sent].
      set (s1 := set_modifiers _ s).
      destruct (IH s1 Hnd) as (Ho & He & Hob & Hmod & _).
      { intros k m' Hk Hkm'. exfalso.
        rewrite MODIFIER_KEY_MAP_lookup in Hkm, Hkm'.
        destruct x, k; try done. }
      split_and!; [done|by rewrite He|by rewrite Hob|set_solver|].
      intros Hnone. specialize (Hnone x ltac:(left)). congruence.
    + rewrite (run_bind_returns (key_released x) _ s ())
        by (by rewrite (key_released_plain x s Hkm)).
      rewrite (key_released_plain x s Hkm). cbn [outcome final sent].
      destruct (IH s Hnd) as (Ho & He & Hob & Hmod & Hsame).
      { intros k m Hk. apply Hheld. by right. }
      split_and!; [done|by rewrite He|done..|].
      intros Hnone. apply Hsame. intros k Hk. apply Hnone. by right.
Qed.

(** One key update in a state where the held modifier keys have their
    modifiers active. *)
Lemma key_run ks s :
  held_modifier s →
  let P := keys (obj s) in
  let N : gset SpeedEditorKey.t := list_to_set ks in
  let r := key ks s in
  outcome r = inr () ∧
  key_edges (sent r)
    = (enter_key_released <$> elements (P ∖ N)) ++ (enter_key_pressed <$> elements (N ∖ P)) ∧
  keys (obj (final r)) = N ∧
  held_modifier (final r).
Proof.
  intros Hheld P N. cbv zeta. unfold key. cbv zeta. run. fold N. fold P.
  set (s1 := set_keys N s).
  destruct (release_loop (elements (P ∖ N)) s1) as (Ho & He & Hob & Hmod & Hsame).
  { apply NoDup_elements. }
  { intros k m Hk Hkm. apply elem_of_elements, elem_of_difference in Hk as [Hk _].
    by apply (Hheld k m). }
  rewrite (run_bind_returns (for_each _ key_released) _ s1 () Ho).
  cbn [outcome final sent].
  set (s2 := final (for_each (elements (P ∖ N)) key_released s1)) in *.
  destruct (press_loop (elements (N ∖ P)) s2) as (Ho' & He' & Hk' & Hm' & Hx').
  assert (Hk2 : keys (obj s2) = N) by (rewrite Hob; by destruct s as [? []]).
  split_and!.
  - done.
  - by rewrite key_edges_app, He, He', key_edges_released.
  - congruence.
  - intros k m Hkm Hk. rewrite Hk', Hk2 in Hk.
    destruct (decide (k ∈ P)) as [HP|HP].
    + apply Hm'. rewrite Hsame; [by apply (Hheld k m)|].
      intros k' Hk''. apply elem_of_elements, elem_of_difference in Hk'' as [_ Hk''].
      rewrite MODIFIER_KEY_MAP_lookup in Hkm |- *.
      destruct k, k'; try done.
    + apply (Hx' k m); [|done]. apply elem_of_elements, elem_of_difference. done.
Qed.

Lemma grows_held s out s' : grows s out s' → held_modifier s → held_modifier s'.
Proof.
  intros (Hk & Hm & _) Hheld k m Hkm Hin. rewrite Hk in Hin.
  apply Hm. by apply (Hheld k m).
Qed.

End edge_tracker.

(** ** The running bridge *)

Lemma timers_started_control_changes c values :
  timers_started (map (midi_control_change c) values) = 0%nat.
Proof. by induction values. Qed.

Lemma timers_started_notes n note velocity :
  timers_started (replicate n (midi_note_on note velocity)) = 0%nat.
Proof. by induction n. Qed.

Lemma encoder_for_no_timer k steps s :
  timers_started (sent (encoder_for k steps s)) = 0%nat.
Proof.
  unfold encoder_for. destruct (decide (k = SpeedEditorKey.SHTL)).
  - rewrite send_midi_nudge_msgs_spec. cbn [sent].
    change (timers_started (?o :: ?l)) with (timers_started l).
    apply timers_started_notes.
  - destruct (send_midi_jog_cc_spec steps s) as (values & -> & _). cbn [sent].
    change (timers_started (?o :: ?l)) with (timers_started l).
    apply timers_started_control_changes.
Qed.

(** What one call of [jog] does to the remainder, in a known mode. *)
Lemma jog_accounts s mode d f :
  MackieHandler.JOG_SPEED_DIV_FACTOR !! jog_mode (obj s) = Some f →
  let r := MackieHandler.jog mode d s in
  outcome r = inr () ∧
  jog_mode (obj (final r)) = jog_mode (obj s) ∧
  zoom_timer_on (obj (final r)) = zoom_timer_on (obj s) ∧
  keys (obj (final r)) = keys (obj s) ∧
  cls (final r) = cls s ∧
  timers_started (sent r) = 0%nat ∧
  0 ≤ jog_unsent (obj (final r)) < f ∧
  jog_unsent (obj s) + d `div` 360
    = foldr Z.add 0 (steps_handed_over (sent r)) * f + jog_unsent (obj (final r)).
Proof.
  intros Hf r. subst r. rewrite (jog_run s mode d f Hf).
  pose proof (speed_div_factor_pos _ _ Hf) as Hpos.
  set (total := jog_unsent (obj s) + d `div` 360).
  destruct (decide (total `div` f = 0)) as [Hz|Hnz].
  - apply Z.div_small_iff in Hz; [|lia].
    cbn. split_and!; try done; lia.
  - pose proof (encoder_for_no_timer (jog_mode (obj s)) (total `div` f)
                  (set_jog_unsent (total - total `div` f * f) s)) as Hnt.
    destruct (encoder_for_spec (jog_mode (obj s)) (total `div` f)
                (set_jog_unsent (total - total `div` f * f) s)) as (msgs & Hrun & Hsteps).
    rewrite Hrun in *. cbn [outcome final sent] in *. rewrite Hsteps.
    pose proof (Z.mod_pos_bound total f Hpos) as Hmod.
    pose proof (Z.div_mod total f ltac:(lia)) as Hdm.
    destruct s as [? []]; cbn in *. split_and!; try done; lia.
Qed.

Section running.
Variables CAM1 CAM2 CAM3 CAM4 CAM5 CAM6 CAM7 CAM8 CAM9 : Z.
Local Abbreviation step_ := (step CAM1 CAM2 CAM3 CAM4 CAM5 CAM6 CAM7 CAM8 CAM9).
Local Abbreviation run_ := (run CAM1 CAM2 CAM3 CAM4 CAM5 CAM6 CAM7 CAM8 CAM9).
Local Abbreviation handler_of_ := (handler_of CAM1 CAM2 CAM3 CAM4 CAM5 CAM6 CAM7 CAM8 CAM9).
Local Abbreviation rotation_out_ := (rotation_out CAM1 CAM2 CAM3 CAM4 CAM5 CAM6 CAM7 CAM8 CAM9).

Lemma zoom_repeat_run s :
  MackieHandler.zoom_repeat s = MackieHandler.zoom_handle_keys (set_zoom_timer_on false s).
Proof. unfold MackieHandler.zoom_repeat. by run. Qed.

(** One event: the invariant is kept and the rotation is accounted for. *)
Lemma step_accounts e y y' :
  sys_inv y → step_ e y = Some y' →
  sys_inv y' ∧
  jog_unsent (obj (self y)) + native_units e
    = foldr Z.add 0 (steps_handed_over (sent (handler_of_ e (self y)))) * active_factor (self y)
      + jog_unsent (obj (self y')).
Proof.
  intros (Ht & Hm & Hheld) Hstep. unfold step in Hstep.
  destruct (decide (fires e ≤ timers y)%nat) as [Hf|]; [|done].
  injection Hstep as <-. unfold sys_inv. cbn [self timers].
  destruct e as [ks|mode d|msg|]; cbn [handler_of fires native_units] in *.
  - destruct (key_quiet ks (self y)) as (Ha & Hj & Hs & Hk).
    destruct (key_run ks (self y) Hheld) as (_ & _ & _ & Hheld').
    rewrite Hs, Hj. cbn. split; [split_and!; [lia|auto|done]|lia].
  - destruct Hm as [f Hfac].
    destruct (jog_accounts (self y) mode d f Hfac)
      as (_ & Hmode & Hz & Hkeys & Hcls & Hnt & _ & Hacc).
    unfold active_factor, mode_known, armed, held_modifier.
    rewrite Hmode, Hz, Hfac, Hnt, Hkeys, Hcls. cbn.
    split; [split_and!; [unfold armed in Ht; lia|by eexists|done]|lia].
  - destruct (receive_thread_body_quiet CAM1 CAM2 CAM3 CAM4 CAM5 CAM6 CAM7 CAM8 CAM9
                msg (self y)) as (Ha & Hj & Hs & Hk).
    pose proof (receive_thread_body_grows CAM1 CAM2 CAM3 CAM4 CAM5 CAM6 CAM7 CAM8 CAM9
                  msg (self y)) as Hg.
    rewrite Hs, Hj. cbn.
    split; [split_and!; [lia|auto|by apply (grows_held _ _ _ Hg)]|lia].
  - rewrite zoom_repeat_run.
    destruct (zoom_handle_keys_quiet (set_zoom_timer_on false (self y)))
      as (Ha & Hj & Hs & Hk).
    pose proof (zoom_handle_keys_grows (set_zoom_timer_on false (self y))) as Hg.
    rewrite Hs, Hj. cbn.
    assert (armed (set_zoom_timer_on false (self y)) = 0%nat) as Hoff by done.
    assert (mode_known (set_zoom_timer_on false (self y))) as Hm'.
    { by destruct (self y) as [? []]. }
    assert (held_modifier (set_zoom_timer_on false (self y))) as Hh'.
    { by destruct (self y) as [? []]. }
    assert (timers y = 1%nat).
    { rewrite Ht in *. unfold armed in *. destruct (zoom_timer_on _); lia. }
    split; [split_and!; [lia|auto|by apply (grows_held _ _ _ Hg)]|].
    destruct (self y) as [? []]; cbn. lia.
Qed.

Lemma run_accounts evs : ∀ y y',
  sys_inv y → run_ evs y = Some y' →
  sys_inv y' ∧
  jog_unsent (obj (self y)) + rotation_in evs
    = rotation_out_ evs y + jog_unsent (obj (self y')).
Proof.
  induction evs as [|e evs IH]; intros y y' Hinv Hrun.
  - injection Hrun as <-. split; [done|]. cbn. lia.
  - cbn [run] in Hrun. cbn [rotation_out rotation_in foldr].
    destruct (step_ e y) as [y1|] eqn:Hstep; [|done]. cbn in Hrun.
    destruct (step_accounts e y y1 Hinv Hstep) as [Hinv1 Hacc1].
    destruct (IH y1 y' Hinv1 Hrun) as [Hinv' Hacc].
    split; [done|]. fold (rotation_in evs). lia.
Qed.

Lemma boot_inv : sys_inv boot.
Proof.
  split_and!; [done|by exists 15|].
  intros k m _ Hk. by apply not_elem_of_empty in Hk.
Qed.

Lemma set_zoom_timer_run s :
  MackieHandler.set_zoom_timer s =
  if zoom_timer_on (obj s) then MkRes (inr ()) s []
  else MkRes (inr ()) (set_zoom_timer_on true s) [timer_start].
Proof.
  unfold MackieHandler.set_zoom_timer. run. unfold when.
  destruct (zoom_timer_on (obj s)); cbn; by run.
Qed.

Lemma zoom_handle_keys_idle s :
  Forall (λ k, k ∉ keys (obj s)) MackieHandler.ZOOM_KEYS →
  MackieHandler.zoom_handle_keys s = MkRes (inr ()) s [].
Proof.
  intros Hk. unfold MackieHandler.ZOOM_KEYS in Hk.
  repeat (apply Forall_cons in Hk as [? Hk]).
  unfold MackieHandler.zoom_handle_keys. run. cbv zeta.
  unfold MackieHandler.ZOOM_KEYS. cbn [existsb].
  rewrite !bool_decide_eq_false_2 by done. cbn. by run.
Qed.

(** C2.  Along every run of the bridge from start-up -- jog calls with key
    updates (the mode switches), inbound messages and timer fires interleaved
    anywhere -- the native units taken in, [value // 360] summed over the jog
    calls, equal the steps handed to the encoders, each times the factor of the
    mode active at that call, plus the final [jog_unsent]; a mode switch leaves
    [jog_unsent] as it is; and when every raw delta is a multiple of 360, as
    the device sends them, the native units are the raw deltas over 360
    exactly. *)
Theorem rotation_conserved (evs : list event) (y : Sys) :
  run_ evs boot = Some y →
  rotation_in evs = rotation_out_ evs boot + jog_unsent (obj (self y)) ∧
  (∀ k s, jog_unsent (obj (final (MackieHandler._set_jog_mode_for_key k s)))
          = jog_unsent (obj s)) ∧
  (Forall (λ e, (360 | raw_delta e)) evs → 360 * rotation_in evs = raw_total evs).
Proof.
  intros Hrun. split_and!.
  - destruct (run_accounts evs boot y boot_inv Hrun) as [_ Hacc].
    change (jog_unsent (obj (self boot))) with 0 in Hacc. lia.
  - intros k s. by destruct (set_jog_mode_for_key_quiet k s) as (_ & ? & _).
  - clear Hrun. induction 1 as [|e evs' [q Hq] _ IH]; [done|].
    cbn [rotation_in raw_total foldr]. fold (rotation_in evs') (raw_total evs').
    rewrite <- IH. destruct e; cbn [native_units raw_delta] in *; try lia.
    rewrite Hq, Z.div_mul by done. lia.
Qed.

(** C3.  In every state the bridge reaches from start-up the active jog mode
    is SHTL, JOG or SCRL with factor 20, 15 or 1, and a jog call made there
    returns normally, keeps the mode and leaves a remainder whose magnitude is
    strictly below that factor. *)
Theorem jog_remainder_bound (evs : list event) (y : Sys)
    (mode : SpeedEditorJogMode.t) (d : Z) :
  run_ evs boot = Some y →
  ∃ f,
    MackieHandler.JOG_SPEED_DIV_FACTOR !! jog_mode (obj (self y)) = Some f ∧
    (jog_mode (obj (self y)), f)
      ∈ [(SpeedEditorKey.SHTL, 20); (SpeedEditorKey.JOG, 15); (SpeedEditorKey.SCRL, 1)] ∧
    let r := MackieHandler.jog mode d (self y) in
    outcome r = inr () ∧
    jog_mode (obj (final r)) = jog_mode (obj (self y)) ∧
    Z.abs (jog_unsent (obj (final r))) < f.
Proof.
  intros Hrun.
  destruct (run_accounts evs boot y boot_inv Hrun) as [(_ & [f Hf] & _) _].
  exists f. split; [done|]. split.
  - rewrite JOG_SPEED_DIV_FACTOR_lookup in Hf.
    destruct (jog_mode (obj (self y))); try done; injection Hf as <-; set_solver.
  - destruct (jog_accounts (self y) mode d f Hf) as (Ho & Hm & _ & _ & _ & _ & Hb & _).
    cbv zeta. split_and!; [done..|lia].
Qed.

(** C10.  In every state reached by any interleaving of key updates, jog
    calls, inbound messages and timer fires, at most one zoom-repeat timer is
    outstanding, and one is outstanding exactly when [zoom_timer_on] is set.
    [set_zoom_timer] starts a timer only when the flag is clear and then sets
    it; the timer callback clears the flag before it runs [zoom_handle_keys];
    and [zoom_handle_keys] with no zoom key held sends nothing, starts no timer
    and changes nothing. *)
Theorem one_zoom_timer (evs : list event) (y : Sys) :
  run_ evs boot = Some y →
  (timers y ≤ 1)%nat ∧
  timers y = armed (self y) ∧
  (∀ s, MackieHandler.set_zoom_timer s =
        if zoom_timer_on (obj s) then MkRes (inr ()) s []
        else MkRes (inr ()) (set_zoom_timer_on true s) [timer_start]) ∧
  (∀ s, MackieHandler.zoom_repeat s
        = MackieHandler.zoom_handle_keys (set_zoom_timer_on false s)) ∧
  (∀ s, Forall (λ k, k ∉ keys (obj s)) MackieHandler.ZOOM_KEYS →
        MackieHandler.zoom_handle_keys s = MkRes (inr ()) s []).
Proof.
  intros Hrun.
  destruct (run_accounts evs boot y boot_inv Hrun) as [(Ht & _) _].
  split_and!.
  - rewrite Ht. unfold armed. destruct (zoom_timer_on _); lia.
  - done.
  - apply set_zoom_timer_run.
  - apply zoom_repeat_run.
  - apply zoom_handle_keys_idle.
Qed.

(** C8.  In every state the bridge reaches from start-up, with P the stored
    held-key set and N the set of the new snapshot, one key update returns
    normally; the key handlers it enters are [key_released] for the keys of
    P - N, each once, followed by [key_pressed] for the keys of N - P, each
    once, and no other; so a key in both snapshots or in neither has no
    event; and the stored set is N afterwards. *)
Theorem key_update_edges (evs : list event) (y : Sys) (keys_held : list SpeedEditorKey.t) :
  run_ evs boot = Some y →
  let P := keys (obj (self y)) in
  let N : gset SpeedEditorKey.t := list_to_set keys_held in
  let r := MackieHandler.key keys_held (self y) in
  outcome r = inr () ∧
  key_edges (sent r)
    = (enter_key_released <$> elements (P ∖ N)) ++ (enter_key_pressed <$> elements (N ∖ P)) ∧
  NoDup (key_edges (sent r)) ∧
  (∀ k, (enter_key_released k ∈ sent r ↔ k ∈ P ∧ k ∉ N) ∧
        (enter_key_pressed k ∈ sent r ↔ k ∈ N ∧ k ∉ P)) ∧
  keys (obj (final r)) = N.
Proof.
  intros Hrun P N r.
  destruct (run_accounts evs boot y boot_inv Hrun) as [(_ & _ & Hheld) _].
  destruct (key_run keys_held (self y) Hheld) as (Ho & He & Hk & _).
  fold P N r in Ho, He, Hk.
  assert (Hrel : Inj (=) (=) enter_key_released) by (intros ?? [=]; done).
  assert (Hpre : Inj (=) (=) enter_key_pressed) by (intros ?? [=]; done).
  assert (Hmem : ∀ o, is_key_edge o = true → o ∈ sent r ↔ o ∈ key_edges (sent r)).
  { intros o Ho'. unfold key_edges. rewrite list_elem_of_filter, Ho'. naive_solver. }
  split_and!; [done|done| | |done].
  - rewrite He. apply NoDup_app. split_and!.
    + apply (NoDup_fmap_2 _), NoDup_elements.
    + intros o Hin1 Hin2.
      apply list_elem_of_fmap in Hin1 as (k1 & -> & _).
      apply list_elem_of_fmap in Hin2 as (k2 & [=] & _).
    + apply (NoDup_fmap_2 _), NoDup_elements.
  - intros k. rewrite !Hmem, He by done.
    rewrite !elem_of_app, !list_elem_of_fmap. split.
    + split.
      * intros [(k' & [= <-] & Hin)|(k' & [=] & _)].
        by apply elem_of_elements, elem_of_difference in Hin.
      * intros [? ?]. left. exists k. split; [done|].
        by apply elem_of_elements, elem_of_difference.
    + split.
      * intros [(k' & [=] & _)|(k' & [= <-] & Hin)].
        by apply elem_of_elements, elem_of_difference in Hin.
      * intros [? ?]. right. exists k. split; [done|].
        by apply elem_of_elements, elem_of_difference.
Qed.

End running.

Lemma rotation_conserved_witness :
  run 1 2 4 8 16 32 64 128 256 sample_session boot = Some sample_final ∧
  rotation_in sample_session
  = rotation_out 1 2 4 8 16 32 64 128 256 sample_session boot
    + jog_unsent (obj (self sample_final)).
Proof.
  split; [vm_compute; reflexivity|].
  apply (rotation_conserved 1 2 4 8 16 32 64 128 256 sample_session sample_final).
  vm_compute; reflexivity.
Defined.

Lemma jog_remainder_bound_witness :
  run 1 2 4 8 16 32 64 128 256 sample_session boot = Some sample_final ∧
  ∃ f,
    MackieHandler.JOG_SPEED_DIV_FACTOR !! jog_mode (obj (self sample_final)) = Some f ∧
    (jog_mode (obj (self sample_final)), f)
      ∈ [(SpeedEditorKey.SHTL, 20); (SpeedEditorKey.JOG, 15); (SpeedEditorKey.SCRL, 1)] ∧
    let r := MackieHandler.jog SpeedEditorJogMode.RELATIVE_2 (-360) (self sample_final) in
    outcome r = inr () ∧
    jog_mode (obj (final r)) = jog_mode (obj (self sample_final)) ∧
    Z.abs (jog_unsent (obj (final r))) < f.
Proof.
  split; [vm_compute; reflexivity|].
  apply (jog_remainder_bound 1 2 4 8 16 32 64 128 256 sample_session sample_final).
  vm_compute; reflexivity.
Defined.

Lemma one_zoom_timer_witness :
  run 1 2 4 8 16 32 64 128 256 sample_session boot = Some sample_final ∧
  (timers sample_final ≤ 1)%nat.
Proof.
  split; [vm_compute; reflexivity|].
  apply (one_zoom_timer 1 2 4 8 16 32 64 128 256 sample_session sample_final).
  vm_compute; reflexivity.
Defined.

Lemma key_update_edges_witness :
  run 1 2 4 8 16 32 64 128 256 [ev_key [SpeedEditorKey.IN; SpeedEditorKey.ROLL]] boot
    = Some roll_and_in_held ∧
  let r := MackieHandler.key [SpeedEditorKey.ROLL; SpeedEditorKey.CUT]
             (self roll_and_in_held) in
  outcome r = inr () ∧
  keys (obj (final r)) = list_to_set [SpeedEditorKey.ROLL; SpeedEditorKey.CUT].
Proof.
  split; [vm_compute; reflexivity|].
  destruct (key_update_edges 1 2 4 8 16 32 64 128 256
              [ev_key [SpeedEditorKey.IN; SpeedEditorKey.ROLL]] roll_and_in_held
              [SpeedEditorKey.ROLL; SpeedEditorKey.CUT])
    as (Ho & _ & _ & _ & Hk).
  - vm_compute; reflexivity.
  - split; assumption.
Defined.

Example key_update_edges_sample :
  key_edges (sent (MackieHandler.key [SpeedEditorKey.ROLL; SpeedEditorKey.CUT]
                     (self roll_and_in_held)))
  = [enter_key_released SpeedEditorKey.IN; enter_key_pressed SpeedEditorKey.CUT].
Proof. vm_compute. reflexivity. Qed.

(** ** The status mirror *)

Section status_mirror.
Variables CAM1 CAM2 CAM3 CAM4 CAM5 CAM6 CAM7 CAM8 CAM9 : Z.
Local Abbreviation group := (MackieHandler.led_set CAM1 CAM2 CAM3 CAM4 CAM5 CAM6 CAM7 CAM8 CAM9).
Local Abbreviation receive :=
  (MackieHandler.receive_thread_body CAM1 CAM2 CAM3 CAM4 CAM5 CAM6 CAM7 CAM8 CAM9).

Lemma receive_play_run s velocity :
  receive (note_on MackieHandler.MCU_PLAY velocity) s =
  let playing := bool_decide (velocity > 0) in
  let cleared := Z.land (leds (obj s)) (Z.lnot group) in
  let mask := if playing then Z.lor cleared group else cleared in
  MkRes (inr ()) (set_leds mask (set_play_state playing s)) [se_set_leds mask].
Proof.
  unfold MackieHandler.receive_thread_body.
  rewrite (bool_decide_eq_true_2 (MackieHandler.MCU_PLAY = MackieHandler.MCU_PLAY)) by done.
  rewrite (bool_decide_eq_false_2 (MackieHandler.MCU_PLAY = MackieHandler.MCU_ZOOM)) by done.
  rewrite (bool_decide_eq_false_2 (MackieHandler.MCU_PLAY = MackieHandler.MCU_SCRUB)) by done.
  unfold when. run. destruct s as [c []]. cbn.
  destruct (bool_decide (velocity > 0)); cbn; run; reflexivity.
Qed.

Lemma led_set_bit i :
  Z.testbit group i
  = existsb (λ cam, Z.testbit cam i) [CAM1; CAM2; CAM3; CAM4; CAM5; CAM6; CAM7; CAM8; CAM9].
Proof.
  unfold MackieHandler.led_set. rewrite !Z.lor_spec. cbn [existsb].
  rewrite orb_false_r, !orb_assoc. reflexivity.
Qed.

(** C9.  For every prior LED mask and every velocity, handling an inbound
    note-on for MCU_PLAY returns normally, records [velocity > 0] as the play
    state, and leaves a mask in which every bit of the camera group is set
    when the velocity is positive and clear when it is 0 (or below), and every
    other bit is as before.  The camera group is CAM1 to CAM9 and nothing
    else: a bit belongs to it exactly when one of the nine flags has it, so
    every bit of each of CAM1, ..., CAM9 is set, or cleared, and a bit that
    none of the nine has is as before.  The only thing sent is one [set_leds]
    carrying that whole new mask, and nothing else of the state changes. *)
Theorem play_status_mirrors_leds (s : Self) (velocity : Z) :
  let r := receive (note_on MackieHandler.MCU_PLAY velocity) s in
  let playing := bool_decide (velocity > 0) in
  let cams := [CAM1; CAM2; CAM3; CAM4; CAM5; CAM6; CAM7; CAM8; CAM9] in
  outcome r = inr () ∧
  play_state (obj (final r)) = playing ∧
  (∀ i, Z.testbit (leds (obj (final r))) i
        = if Z.testbit group i then playing else Z.testbit (leds (obj s)) i) ∧
  (∀ i, Z.testbit group i = true ↔ ∃ cam, cam ∈ cams ∧ Z.testbit cam i = true) ∧
  (∀ cam i, cam ∈ cams → Z.testbit cam i = true →
            Z.testbit (leds (obj (final r))) i = playing) ∧
  (∀ i, (∀ cam, cam ∈ cams → Z.testbit cam i = false) →
        Z.testbit (leds (obj (final r))) i = Z.testbit (leds (obj s)) i) ∧
  sent r = [se_set_leds (leds (obj (final r)))] ∧
  final r = set_leds (leds (obj (final r))) (set_play_state playing s).
Proof.
  cbv zeta. rewrite receive_play_run. cbv zeta. cbn [outcome final sent].
  set (playing := bool_decide (velocity > 0)).
  set (cleared := Z.land (leds (obj s)) (Z.lnot group)).
  set (mask := if playing then Z.lor cleared group else cleared).
  set (cams := [CAM1; CAM2; CAM3; CAM4; CAM5; CAM6; CAM7; CAM8; CAM9]).
  assert (Hleds : ∀ p, leds (obj (set_leds mask (set_play_state p s))) = mask).
  { intros p. by destruct s as [? []]. }
  assert (Hplay : play_state (obj (set_leds mask (set_play_state playing s))) = playing).
  { by destruct s as [? []]. }
  rewrite Hleds, Hplay.
  assert (Hbits : ∀ i, Z.testbit mask i
                       = if Z.testbit group i then playing else Z.testbit (leds (obj s)) i).
  { intros i. subst mask cleared.
    destruct (Z.neg_nonneg_cases i) as [Hneg|Hi].
    { rewrite !Z.testbit_neg_r by done. done. }
    destruct playing;
      rewrite ?Z.lor_spec, Z.land_spec, Z.lnot_spec by done;
      destruct (Z.testbit group i), (Z.testbit (leds (obj s)) i); done. }
  assert (Hgroup : ∀ i, Z.testbit group i = true
                        ↔ ∃ cam, cam ∈ cams ∧ Z.testbit cam i = true).
  { intros i. rewrite led_set_bit. fold cams. rewrite existsb_exists.
    split; intros (cam & Hin & Hbit); exists cam; (split; [|done]);
      by apply list_elem_of_In. }
  split_and!; try done.
  - intros cam i Hin Hbit. rewrite Hbits.
    by rewrite (proj2 (Hgroup i) (ex_intro _ cam (conj Hin Hbit))).
  - intros i Hnone. rewrite Hbits.
    destruct (Z.testbit group i) eqn:Hg; [|done].
    apply Hgroup in Hg as (cam & Hin & Hbit). by rewrite (Hnone cam Hin) in Hbit.
Qed.

End status_mirror.

(** C4, as the code has it.  On the release of a key mapped to a modifier:
    when the modifier is among the active ones it is removed, nothing is sent
    and the handler returns; when it is not, [set.remove] raises [KeyError]
    with the attributes untouched, and the error leaves [key_released] and the
    whole key update that noticed the release, after the held keys have been
    stored. *)
Theorem modifier_release_raises_when_absent
    (k : SpeedEditorKey.t) (m : KeyModifiers.t) (s : Self) :
  MackieHandler.MODIFIER_KEY_MAP !! k = Some m →
  (m ∈ modifiers (cls s) →
     MackieHandler.modifier_released k s
       = MkRes (inr ()) (set_modifiers (modifiers (cls s) ∖ {[ m ]}) s) []) ∧
  (m ∉ modifiers (cls s) →
     MackieHandler.modifier_released k s = MkRes (inl KeyError) s [] ∧
     MackieHandler.key_released k s = MkRes (inl KeyError) s [enter_key_released k] ∧
     ∀ keys_held, k ∈ keys (obj s) → k ∉ keys_held →
       let r := MackieHandler.key keys_held s in
       outcome r = inl KeyError ∧
       final r = set_keys (list_to_set keys_held) s).
Proof.
  intros Hk. pose proof (modifier_released_run k m s Hk) as Hrun. split.
  - intros Hm. by rewrite Hrun, decide_True.
  - intros Hm. rewrite decide_False in Hrun by done. split; [done|]. split.
    + rewrite key_released_run. by rewrite Hrun.
    + intros ks Hheld Hup. unfold MackieHandler.key. cbv zeta. run.
      set (s1 := set_keys (list_to_set ks) s).
      assert (Hm1 : m ∉ modifiers (cls s1)) by done.
      assert (Hin : k ∈ elements (keys (obj s) ∖ list_to_set ks)).
      { apply elem_of_elements, elem_of_difference. split; [done|].
        by rewrite elem_of_list_to_set. }
      destruct (release_loop_raises k m _ s1 Hk Hin Hm1) as [Ho Hf].
      rewrite (run_bind_raises _ _ _ _ Ho). cbn [outcome final]. by rewrite Hf.
Qed.

Lemma modifier_release_raises_when_absent_witness :
  MackieHandler.modifier_released SpeedEditorKey.ROLL roll_held_unmarked
    = MkRes (inl KeyError) roll_held_unmarked [].
Proof.
  refine (proj1 (proj2 (modifier_release_raises_when_absent
            SpeedEditorKey.ROLL KeyModifiers.NUDGE roll_held_unmarked _) _)).
  - vm_compute; reflexivity.
  - vm_compute. discriminate.
Defined.

(** C4 as stated fails: with ROLL mapped to NUDGE and NUDGE not active, the
    release handler raises [KeyError]; the error is not caught in
    [key_released] nor in [key], so it reaches the poll loop.  Two handlers
    reach this from start-up: both see ROLL pressed, the first release removes
    NUDGE from the set they share, the second release raises. *)
Lemma modifier_release_not_tolerant :
  MackieHandler.MODIFIER_KEY_MAP !! SpeedEditorKey.ROLL = Some KeyModifiers.NUDGE ∧
  modifiers (cls roll_held_unmarked) = ∅ ∧
  outcome (MackieHandler.modifier_released SpeedEditorKey.ROLL roll_held_unmarked)
    = inl KeyError ∧
  outcome (MackieHandler.key [] roll_held_unmarked) = inl KeyError ∧
  snd <$> key_calls [(0%nat, [SpeedEditorKey.ROLL]); (1%nat, [SpeedEditorKey.ROLL]);
                     (0%nat, []); (1%nat, [])] two_handlers
    = Some (inl KeyError).
Proof. vm_compute. repeat split. Qed.

(** C5 fails on the code: [modifiers] is bound once in the class body, so two
    handlers share it.  Both start with no modifier; pressing ROLL on the
    first makes NUDGE active for the second, whose own held keys stay empty;
    and a handler constructed afterwards starts with NUDGE active. *)
Lemma modifiers_shared_across_handlers :
  modifiers_of 0 two_handlers = Some ∅ ∧
  modifiers_of 1 two_handlers = Some ∅ ∧
  let w := fst <$> key_calls [(0%nat, [SpeedEditorKey.ROLL])] two_handlers in
  (w ≫= modifiers_of 1) = Some {[ KeyModifiers.NUDGE ]} ∧
  (w ≫= λ w', keys <$> handlers w' !! 1%nat) = Some ∅ ∧
  (w ≫= λ w', modifiers_of 2 (construct w').1) = Some {[ KeyModifiers.NUDGE ]}.
Proof. vm_compute. repeat split. Qed.

(** * Further properties of the handler *)

(** ** Start-up *)

Lemma prefix_of_empty device :
  String.prefix device EmptyString = true → device = EmptyString.
Proof. by destruct device. Qed.

(** X1.  When [find_device_in_list] returns a name, the name is not empty, it
    starts with the device name asked for, and it is the first such name of
    the list: no name before it starts with the device name. *)
Theorem find_device_in_list_first_match (device : string) (names : list string) (n : string) :
  find_device_in_list device names = inr n →
  n ≠ EmptyString ∧ String.prefix device n = true ∧
  ∃ before rest,
    names = before ++ n :: rest ∧
    Forall (λ x, String.prefix device x = false) before.
Proof.
  unfold find_device_in_list. cbv zeta.
  destruct (List.find (String.prefix device) names) as [x|] eqn:Hfind; [|done].
  destruct (decide (x = EmptyString)); [done|]. intros [= <-].
  split; [done|].
  induction names as [|y names IH]; [done|]. cbn in Hfind.
  destruct (String.prefix device y) eqn:Hy.
  - injection Hfind as ->. split; [done|]. exists [], names. by split.
  - destruct (IH Hfind) as (Hp & before & rest & -> & Hall).
    split; [done|]. exists (y :: before), rest. split; [done|]. by constructor.
Qed.

Lemma find_device_in_list_first_match_witness :
  find_device_in_list "mackieIn" ["IAC Bus"; "mackieIn 1"; "mackieIn 2"]%string
    = inr "mackieIn 1"%string ∧
  String.prefix "mackieIn" "mackieIn 1" = true.
Proof.
  split; [reflexivity|].
  apply (find_device_in_list_first_match "mackieIn"
           ["IAC Bus"; "mackieIn 1"; "mackieIn 2"]%string "mackieIn 1").
  reflexivity.
Defined.

(** X2.  [find_device_in_list] raises [RuntimeError], carrying the device
    name and the list, when no name of the list starts with the device name --
    in particular on the empty list; and for a device name that is not empty
    it returns a name as soon as one of the list starts with it. *)
Theorem find_device_in_list_raises (device : string) (names : list string) :
  (Forall (λ x, String.prefix device x = false) names →
     find_device_in_list device names = inl (RuntimeError device names)) ∧
  find_device_in_list device [] = inl (RuntimeError device []) ∧
  (device ≠ EmptyString →
     Exists (λ x, String.prefix device x = true) names →
     ∃ n, find_device_in_list device names = inr n).
Proof.
  split_and!.
  - intros Hall. unfold find_device_in_list. cbv zeta.
    destruct (List.find (String.prefix device) names) as [x|] eqn:Hfind; [|done].
    apply List.find_some in Hfind as [Hin Hp].
    rewrite Forall_forall in Hall. apply list_elem_of_In in Hin.
    rewrite (Hall x Hin) in Hp. done.
  - done.
  - intros Hdev Hex. unfold find_device_in_list. cbv zeta.
    destruct (List.find (String.prefix device) names) as [x|] eqn:Hfind.
    + apply List.find_some in Hfind as [_ Hp].
      destruct (decide (x = EmptyString)) as [->|]; [|by eexists].
      by apply prefix_of_empty in Hp.
    + apply Exists_exists in Hex as (x & Hin & Hp).
      apply list_elem_of_In in Hin.
      pose proof (List.find_none _ _ Hfind x Hin) as Hn. congruence.
Qed.

Lemma find_device_in_list_raises_witness :
  ∃ n, find_device_in_list "mackieOut" ["loop"; "mackieOut 3"]%string = inr n.
Proof.
  apply (find_device_in_list_raises "mackieOut" ["loop"; "mackieOut 3"]%string).
  - done.
  - apply Exists_cons_tl, Exists_cons_hd. reflexivity.
Defined.

(** X3.  The port look-up of [__init__] succeeds exactly when some output
    name starts with "mackieIn" and some input name starts with "mackieOut";
    it then returns the first such name of each list.  When no output name
    fits, the error is the one for "mackieIn", whatever the input names
    are. *)
Theorem find_ports_both_or_neither (output_names input_names : list string) :
  (∀ out_name in_name,
     find_ports output_names input_names = inr (out_name, in_name) ↔
     find_device_in_list "mackieIn" output_names = inr out_name ∧
     find_device_in_list "mackieOut" input_names = inr in_name) ∧
  ((∃ ports, find_ports output_names input_names = inr ports) ↔
     Exists (λ x, String.prefix "mackieIn" x = true) output_names ∧
     Exists (λ x, String.prefix "mackieOut" x = true) input_names) ∧
  (Forall (λ x, String.prefix "mackieIn" x = false) output_names →
     find_ports output_names input_names
       = inl (RuntimeError "mackieIn" output_names)).
Proof.
  assert (Hex : ∀ device names, device ≠ EmptyString →
            (∃ n, find_device_in_list device names = inr n) ↔
            Exists (λ x, String.prefix device x = true) names).
  { intros device names Hdev. split.
    - intros [n Hn].
      destruct (find_device_in_list_first_match device names n Hn)
        as (_ & Hp & before & rest & -> & _).
      apply Exists_app. right. by left.
    - by apply find_device_in_list_raises. }
  unfold find_ports, midi_in_device, midi_out_device. split_and!.
  - intros o i.
    destruct (find_device_in_list "mackieIn" output_names) as [e|o'];
      [naive_solver|].
    destruct (find_device_in_list "mackieOut" input_names) as [e|i'];
      naive_solver.
  - rewrite <- !Hex by done.
    destruct (find_device_in_list "mackieIn" output_names) as [e|o'];
      [naive_solver|].
    destruct (find_device_in_list "mackieOut" input_names) as [e|i'];
      naive_solver.
  - intros Hall.
    by rewrite (proj1 (find_device_in_list_raises "mackieIn" output_names) Hall).
Qed.

(** X4.  [__init__] leaves the same instance attributes whatever was bound
    before -- no key held, LED mask 0, no status flag, no timer flag,
    remainder 0, jog mode JOG --, sends the device the LED mask 0, the JOG ring
    LED and the relative jog mode, in this order, and does not touch the
    modifiers of the class. *)
Theorem init_resets_instance_only (c : class_attrs) (o : instance_attrs) :
  MackieHandler.__init__ (MkSelf c o)
  = MkRes (inr ()) (MkSelf c fresh)
      [se_set_leds 0; se_set_jog_leds SpeedEditorJogLed.JOG;
       se_set_jog_mode SpeedEditorJogMode.RELATIVE_2].
Proof.
  unfold MackieHandler.__init__, MackieHandler._set_jog_mode_for_key.
  rewrite JOG_lookup. run. destruct o. reflexivity.
Qed.

(** ** More on the jog quantizer *)

(** X6.  With the remainder in its range [0, f), a raw delta below one native
    unit forwards (0 <= d < 360) is dropped: nothing is sent and no attribute
    changes.  A raw delta below one native unit backwards (-360 <= d < 0) is
    taken as one whole unit: it does exactly what -360 does, and the remainder
    goes down by one when it can and wraps to f - 1 otherwise. *)
Theorem jog_sub_unit_deltas (s : Self) (mode : SpeedEditorJogMode.t) (d f : Z) :
  MackieHandler.JOG_SPEED_DIV_FACTOR !! jog_mode (obj s) = Some f →
  0 ≤ jog_unsent (obj s) < f →
  (0 ≤ d < 360 → MackieHandler.jog mode d s = MkRes (inr ()) s []) ∧
  (-360 ≤ d < 0 →
     MackieHandler.jog mode d s = MackieHandler.jog mode (-360) s ∧
     jog_unsent (obj (final (MackieHandler.jog mode d s)))
       = if decide (jog_unsent (obj s) = 0) then f - 1 else jog_unsent (obj s) - 1).
Proof.
  intros Hf Hr. split.
  - intros Hd. rewrite (jog_run s mode d f Hf).
    rewrite (Z.div_small d 360) by lia. rewrite Z.add_0_r.
    rewrite (Z.div_small (jog_unsent (obj s)) f) by lia.
    rewrite decide_True by done. by destruct s as [? []].
  - intros Hd.
    assert (Hq : d `div` 360 = -1).
    { symmetry. apply (Z.div_unique d 360 (-1) (d + 360)); lia. }
    assert (Hq' : (-360) `div` 360 = -1) by done.
    split.
    + rewrite !(jog_run s mode _ f Hf). by rewrite Hq, Hq'.
    + destruct (jog_accounts s mode d f Hf) as (_ & _ & _ & _ & _ & _ & Hb & Hacc).
      rewrite Hq in Hacc.
      set (u := jog_unsent (obj (final (MackieHandler.jog mode d s)))) in *.
      set (k := foldr Z.add 0 _) in *.
      assert (Hu : u = (jog_unsent (obj s) - 1) `mod` f).
      { apply (Z.mod_unique_pos _ _ k); lia. }
      rewrite Hu. destruct (decide (jog_unsent (obj s) = 0)) as [->|].
      * symmetry. apply (Z.mod_unique_pos _ _ (-1)); lia.
      * apply Z.mod_small. lia.
Qed.

Lemma jog_sub_unit_deltas_witness :
  MackieHandler.jog SpeedEditorJogMode.RELATIVE_2 359 (self boot)
    = MkRes (inr ()) (self boot) [].
Proof.
  apply (jog_sub_unit_deltas (self boot) SpeedEditorJogMode.RELATIVE_2 359 15).
  - reflexivity.
  - vm_compute. split; [discriminate|reflexivity].
  - lia.
Defined.

(** ** Frames *)

Lemma keeps_refl {X} (proj : Self → X) s : keeps proj s [] s.
Proof. done. Qed.

Lemma keeps_trans {X} (proj : Self → X) s1 o1 s2 o2 s3 :
  keeps proj s1 o1 s2 → keeps proj s2 o2 s3 → keeps proj s1 (o1 ++ o2) s3.
Proof. unfold keeps. congruence. Qed.

Lemma keeps_emit {X} (proj : Self → X) o : respects (keeps proj) (emit o).
Proof. by intros s. Qed.

Lemma keeps_modify {X} (proj : Self → X) f :
  (∀ s, proj (f s) = proj s) → respects (keeps proj) (modify f).
Proof. intros Hf s. apply Hf. Qed.

Lemma sends_only_refl P s : sends_only P s [] s.
Proof. done. Qed.

Lemma sends_only_trans P s1 o1 s2 o2 s3 :
  sends_only P s1 o1 s2 → sends_only P s2 o2 s3 → sends_only P s1 (o1 ++ o2) s3.
Proof. unfold sends_only. intros H1 H2. by rewrite forallb_app, H1, H2. Qed.

Lemma sends_only_emit P o : P o = true → respects (sends_only P) (emit o).
Proof. intros Ho s. unfold sends_only. cbn. by rewrite Ho. Qed.

Lemma sends_only_modify P f : respects (sends_only P) (modify f).
Proof. by intros s. Qed.

(** The encoders change no attribute, never raise, and send encoder outputs. *)
Lemma encoders_run shift s :
  (∃ out, MackieHandler.send_midi_nudge_msgs shift s = MkRes (inr ()) s out ∧
          Forall encoder_output out) ∧
  (∃ out, MackieHandler.send_midi_jog_cc shift s = MkRes (inr ()) s out ∧
          Forall encoder_output out).
Proof.
  split.
  - eexists. split; [apply send_midi_nudge_msgs_spec|].
    constructor; [done|]. apply Forall_replicate. split; [done|].
    repeat case_decide; set_solver.
  - destruct (send_midi_jog_cc_spec shift s) as (values & -> & _ & Hall & _).
    eexists. split; [done|]. constructor; [done|].
    apply Forall_fmap. eapply Forall_impl; [apply Hall|].
    intros v (_ & _ & Hv). by split.
Qed.

Lemma nudge_keeps {X} (proj : Self → X) shift :
  respects (keeps proj) (MackieHandler.send_midi_nudge_msgs shift).
Proof. intros s. destruct (proj1 (encoders_run shift s)) as (out & -> & _). done. Qed.

Lemma jog_cc_keeps {X} (proj : Self → X) shift :
  respects (keeps proj) (MackieHandler.send_midi_jog_cc shift).
Proof. intros s. destruct (proj2 (encoders_run shift s)) as (out & -> & _). done. Qed.

Lemma forallb_of_Forall {A} (P : A → bool) (Q : A → Prop) l :
  (∀ x, Q x → P x = true) → Forall Q l → forallb P l = true.
Proof.
  intros HPQ Hall. induction Hall as [|x l Hx _ IH]; [done|].
  cbn. by rewrite (HPQ x Hx), IH.
Qed.

Lemma nudge_sends_only P shift :
  (∀ o, encoder_output o → P o = true) →
  respects (sends_only P) (MackieHandler.send_midi_nudge_msgs shift).
Proof.
  intros HP s. destruct (proj1 (encoders_run shift s)) as (out & -> & Hall).
  by apply (forallb_of_Forall P encoder_output).
Qed.

Lemma jog_cc_sends_only P shift :
  (∀ o, encoder_output o → P o = true) →
  respects (sends_only P) (MackieHandler.send_midi_jog_cc shift).
Proof.
  intros HP s. destruct (proj2 (encoders_run shift s)) as (out & -> & Hall).
  by apply (forallb_of_Forall P encoder_output).
Qed.

(** One step of a frame proof, for a relation with its two laws and a tactic
    for assignments, sends and encoder calls. *)
Ltac frame_step R refl trans prim :=
  first
    [ assumption
    | prim
    | apply (respects_bind R trans); [|intros ?]
    | apply (respects_ret R refl)
    | apply (respects_get R refl)
    | apply (respects_raise R refl)
    | apply (respects_when R refl)
    | apply (respects_for_each R refl trans); intros ?
    | progress (unfold MackieHandler.modifier_released, MackieHandler.modifier_pressed,
                       MackieHandler._set_jog_mode_for_key; cbv zeta)
    | match goal with
      | |- respects _ (if decide ?P then _ else _) => destruct (decide P)
      | |- respects _ (match ?o with _ => _ end) => destruct o
      end ].

Ltac keeps_prim :=
  first
    [ apply nudge_keeps
    | apply jog_cc_keeps
    | apply keeps_emit
    | apply keeps_modify; intros [[?] []]; reflexivity ].

Ltac keeps_all proj :=
  repeat frame_step (keeps proj) (keeps_refl proj) (keeps_trans proj) keeps_prim.

Ltac sends_prim encoder_case :=
  first
    [ apply nudge_sends_only; encoder_case
    | apply jog_cc_sends_only; encoder_case
    | apply sends_only_modify
    | apply sends_only_emit; reflexivity ].

Ltac sends_all P encoder_case :=
  repeat frame_step (sends_only P) (sends_only_refl P) (sends_only_trans P)
                    ltac:(sends_prim encoder_case).

Section frames.
Import MackieHandler.
Variables CAM1 CAM2 CAM3 CAM4 CAM5 CAM6 CAM7 CAM8 CAM9 : Z.
Local Abbreviation handler_of_ := (handler_of CAM1 CAM2 CAM3 CAM4 CAM5 CAM6 CAM7 CAM8 CAM9).

Lemma midi_ok_encoder o : encoder_output o → midi_ok o = true.
Proof.
  destruct o; try done; cbn.
  - intros [-> Hn]. rewrite !elem_of_cons, elem_of_nil in Hn.
    destruct Hn as [->|[->|[->|[->|[]]]]]; reflexivity.
  - intros [-> Hv]. unfold MCU_JOG_CC.
    rewrite Z.eqb_refl. cbn.
    apply andb_true_intro. split; [apply Z.leb_le|apply Z.ltb_lt]; lia.
Qed.

(** X11.  Whatever the event and the state, every MIDI message the handler
    sends is a note-on with velocity 127 and a note number below 128, or a
    control change on control 0x3c with a value below 128. *)
Theorem midi_messages_wellformed (e : event) (s : Self) :
  Forall (λ o, midi_ok o = true) (sent (handler_of_ e s)).
Proof.
  apply Forall_forall. intros o Ho.
  cut (forallb midi_ok (sent (handler_of_ e s)) = true).
  { intros Hall. rewrite forallb_forall in Hall. apply Hall.
    by apply list_elem_of_In. }
  change (sends_only midi_ok s (sent (handler_of_ e s)) (final (handler_of_ e s))).
  generalize s. change (respects (sends_only midi_ok) (handler_of_ e)).
  destruct e as [ks|mode d|msg|]; cbn [handler_of].
  - unfold key. cbv zeta.
    sends_all midi_ok ltac:(apply midi_ok_encoder).
  - unfold jog, subscript. cbv zeta.
    sends_all midi_ok ltac:(apply midi_ok_encoder).
  - unfold receive_thread_body.
    sends_all midi_ok ltac:(apply midi_ok_encoder).
  - sends_all midi_ok ltac:(apply midi_ok_encoder).
Qed.

End frames.

Ltac returns_all :=
  repeat first
    [ assumption
    | returns_step
    | progress (unfold MackieHandler.modifier_pressed,
                       MackieHandler._set_jog_mode_for_key; cbv zeta)
    | match goal with
      | |- returns (if decide ?P then _ else _) => destruct (decide P)
      | |- returns (match ?o with _ => _ end) => destruct o
      end ].

Section receive_frames.
Import MackieHandler.
Variables CAM1 CAM2 CAM3 CAM4 CAM5 CAM6 CAM7 CAM8 CAM9 : Z.
Local Abbreviation receive_ :=
  (receive_thread_body CAM1 CAM2 CAM3 CAM4 CAM5 CAM6 CAM7 CAM8 CAM9).
Local Abbreviation handler_of_ := (handler_of CAM1 CAM2 CAM3 CAM4 CAM5 CAM6 CAM7 CAM8 CAM9).

Lemma receive_returns msg : returns (receive_ msg).
Proof. unfold receive_thread_body. returns_all. Qed.

(** X8.  Handling an inbound message never raises, never changes the held
    keys, the modifiers, the jog remainder, the jog mode or the timer flag,
    and sends nothing but LED masks to the device: no MIDI message and no
    timer. *)
Theorem receive_leaves_input_side (msg : mido_msg) (s : Self) :
  let r := receive_ msg s in
  outcome r = inr () ∧
  input_side (final r) = input_side s ∧
  Forall (λ o, is_set_leds o = true) (sent r).
Proof.
  cbv zeta. split_and!.
  - by destruct (receive_returns msg s) as [[] ?].
  - cut (respects (keeps input_side) (receive_ msg)); [intros H; exact (H s)|].
    unfold receive_thread_body. keeps_all input_side.
  - cut (respects (sends_only is_set_leds) (receive_ msg)).
    { intros H. specialize (H s). unfold sends_only in H.
      rewrite forallb_forall in H. apply Forall_forall. intros o Ho.
      by apply H, list_elem_of_In. }
    unfold receive_thread_body. sends_all is_set_leds ltac:(fail).
Qed.

(** X9.  A note-on for MCU_ZOOM only records [velocity > 0] as the zoom
    status, one for MCU_SCRUB only records it as the scrub status, and neither
    sends anything; a note-on for any other note but MCU_PLAY, and any message
    that is not a note-on, is ignored: nothing changes and nothing is sent. *)
Theorem receive_status_flags (s : Self) :
  (∀ velocity,
     receive_ (note_on MCU_ZOOM velocity) s
     = MkRes (inr ()) (set_zoom_mode_attr (bool_decide (velocity > 0)) s) []) ∧
  (∀ velocity,
     receive_ (note_on MCU_SCRUB velocity) s
     = MkRes (inr ()) (set_scrub_mode (bool_decide (velocity > 0)) s) []) ∧
  (∀ note velocity,
     note ∉ [MCU_PLAY; MCU_ZOOM; MCU_SCRUB] →
     receive_ (note_on note velocity) s = MkRes (inr ()) s []) ∧
  receive_ other_msg s = MkRes (inr ()) s [].
Proof.
  split_and!.
  - intros v. unfold receive_thread_body.
    rewrite (bool_decide_eq_false_2 (MCU_ZOOM = MCU_PLAY)) by done.
    rewrite (bool_decide_eq_true_2 (MCU_ZOOM = MCU_ZOOM)) by done.
    rewrite (bool_decide_eq_false_2 (MCU_ZOOM = MCU_SCRUB)) by done.
    unfold when. by run.
  - intros v. unfold receive_thread_body.
    rewrite (bool_decide_eq_false_2 (MCU_SCRUB = MCU_PLAY)) by done.
    rewrite (bool_decide_eq_false_2 (MCU_SCRUB = MCU_ZOOM)) by done.
    rewrite (bool_decide_eq_true_2 (MCU_SCRUB = MCU_SCRUB)) by done.
    unfold when. by run.
  - intros note v Hn. rewrite !not_elem_of_cons in Hn.
    destruct Hn as (? & ? & ? & _). unfold receive_thread_body.
    rewrite (bool_decide_eq_false_2 (note = MCU_PLAY)) by done.
    rewrite (bool_decide_eq_false_2 (note = MCU_ZOOM)) by done.
    rewrite (bool_decide_eq_false_2 (note = MCU_SCRUB)) by done.
    unfold when. by run.
  - done.
Qed.

(** X10.  Only the receive thread writes the status side: a key update, a
    jog call and the timer callback leave the play, zoom and scrub status and
    the LED mask as they are, and send no LED mask to the device. *)
Theorem status_side_is_receive_only (e : event) (s : Self) :
  (∀ msg, e ≠ ev_receive msg) →
  let r := handler_of_ e s in
  status_side (final r) = status_side s ∧
  Forall (λ o, is_set_leds o = false) (sent r).
Proof.
  intros He. cbv zeta. split.
  - cut (respects (keeps status_side) (handler_of_ e)); [intros H; exact (H s)|].
    destruct e as [ks|mode d|msg|]; cbn [handler_of].
    + unfold key. cbv zeta. keeps_all status_side.
    + unfold jog, subscript. cbv zeta. keeps_all status_side.
    + by destruct (He msg).
    + keeps_all status_side.
  - cut (respects (sends_only (λ o, negb (is_set_leds o))) (handler_of_ e)).
    { intros H. specialize (H s). unfold sends_only in H.
      rewrite forallb_forall in H. apply Forall_forall. intros o Ho.
      apply negb_true_iff, H. by apply list_elem_of_In. }
    destruct e as [ks|mode d|msg|]; cbn [handler_of].
    + unfold key. cbv zeta.
      sends_all (λ o, negb (is_set_leds o)) ltac:(by intros []).
    + unfold jog, subscript. cbv zeta.
      sends_all (λ o, negb (is_set_leds o)) ltac:(by intros []).
    + by destruct (He msg).
    + sends_all (λ o, negb (is_set_leds o)) ltac:(by intros []).
Qed.

End receive_frames.

Lemma status_side_is_receive_only_witness :
  status_side (final (MackieHandler.key [SpeedEditorKey.STOP_PLAY] (self sample_final)))
  = status_side (self sample_final).
Proof.
  apply (status_side_is_receive_only 1 2 4 8 16 32 64 128 256
           (ev_key [SpeedEditorKey.STOP_PLAY]) (self sample_final)).
  intros msg. discriminate.
Defined.

(** ** Keys *)

Section keys.
Import MackieHandler.

(** X7.  Pressing a modifier key makes its modifier active and sends
    nothing; pressing it again changes nothing; releasing it after a press
    never raises and leaves the modifier inactive, so that when the modifier
    was inactive before the press, press and release together restore the
    state. *)
Theorem modifier_press_release_round_trip
    (k : SpeedEditorKey.t) (m : KeyModifiers.t) (s : Self) :
  MODIFIER_KEY_MAP !! k = Some m →
  let pressed := set_modifiers (modifiers (cls s) ∪ {[ m ]}) s in
  modifier_pressed k s = MkRes (inr ()) pressed [] ∧
  modifier_pressed k pressed = MkRes (inr ()) pressed [] ∧
  modifier_released k pressed
    = MkRes (inr ()) (set_modifiers (modifiers (cls s) ∖ {[ m ]}) s) [] ∧
  (m ∉ modifiers (cls s) → final (modifier_released k pressed) = s).
Proof.
  intros Hk pressed.
  assert (Hpress : ∀ s', modifier_pressed k s'
            = MkRes (inr ()) (set_modifiers (modifiers (cls s') ∪ {[ m ]}) s') []).
  { intros s'. unfold modifier_pressed. cbv zeta. rewrite Hk. destruct m.
    cbn [truthy KeyModifiers.value]. rewrite (bool_decide_eq_true_2 (1 ≠ 0)) by done.
    cbn [when]. by run. }
  assert (Hrel : modifier_released k pressed
            = MkRes (inr ()) (set_modifiers (modifiers (cls s) ∖ {[ m ]}) s) []).
  { rewrite (modifier_released_run k m pressed Hk).
    rewrite decide_True by (subst pressed; cbn; set_solver).
    subst pressed. unfold set_modifiers. cbn. do 3 f_equal. set_solver. }
  split_and!.
  - apply Hpress.
  - rewrite Hpress. subst pressed. unfold set_modifiers. cbn. do 3 f_equal. set_solver.
  - done.
  - intros Hm. rewrite Hrel. cbn. destruct s as [[M] o]. unfold set_modifiers. cbn in *.
    do 2 f_equal. set_solver.
Qed.

Lemma modifier_press_release_round_trip_witness :
  final (modifier_released SpeedEditorKey.ROLL
           (set_modifiers (modifiers (cls (self boot)) ∪ {[ KeyModifiers.NUDGE ]})
                          (self boot)))
  = self boot.
Proof.
  refine (proj2 (proj2 (proj2 (modifier_press_release_round_trip
            SpeedEditorKey.ROLL KeyModifiers.NUDGE (self boot) _))) _).
  - vm_compute; reflexivity.
  - vm_compute. discriminate.
Defined.

(** X12.  Pressing a key that is no jog selector, no modifier key and no zoom
    key changes no attribute and sends at most one message: STOP_PLAY sends
    the note MCU_STOP when the play status is set and MCU_PLAY when it is not;
    FULL_VIEW, CUT, SPLIT, LIVE_OWR, ESC, TRANS and RIPL_DEL send MCU_REC and
    MCU_F3 to MCU_F8; any other key sends nothing. *)
Theorem key_pressed_button (k : SpeedEditorKey.t) (s : Self) :
  JOG !! k = None → MODIFIER_KEY_MAP !! k = None → k ∉ ZOOM_KEYS →
  key_pressed k s
  = MkRes (inr ()) s
      (enter_key_pressed k ::
       match k with
       | SpeedEditorKey.STOP_PLAY =>
           [midi_note_on (if play_state (obj s) then MCU_STOP else MCU_PLAY) 127]
       | SpeedEditorKey.FULL_VIEW => [midi_note_on MCU_REC 127]
       | SpeedEditorKey.CUT => [midi_note_on MCU_F3 127]
       | SpeedEditorKey.SPLIT => [midi_note_on MCU_F4 127]
       | SpeedEditorKey.LIVE_OWR => [midi_note_on MCU_F5 127]
       | SpeedEditorKey.ESC => [midi_note_on MCU_F6 127]
       | SpeedEditorKey.TRANS => [midi_note_on MCU_F7 127]
       | SpeedEditorKey.RIPL_DEL => [midi_note_on MCU_F8 127]
       | _ => []
       end).
Proof.
  intros Hjog Hmod Hzoom.
  unfold key_pressed, _set_jog_mode_for_key, modifier_pressed. cbv zeta.
  rewrite Hjog, Hmod. rewrite (bool_decide_eq_false_2 (k ∈ ZOOM_KEYS)) by done.
  rewrite JOG_lookup in Hjog. rewrite MODIFIER_KEY_MAP_lookup in Hmod.
  unfold ZOOM_KEYS in Hzoom. rewrite !not_elem_of_cons in Hzoom.
  destruct Hzoom as (? & ? & ? & ? & _).
  destruct k; try done;
    destruct s as [c [? ? ? [] ? ? ? ?]]; vm_compute; reflexivity.
Qed.

Lemma key_pressed_button_witness :
  key_pressed SpeedEditorKey.STOP_PLAY (self sample_final)
  = MkRes (inr ()) (self sample_final)
      [enter_key_pressed SpeedEditorKey.STOP_PLAY; midi_note_on MCU_STOP 127].
Proof.
  apply (key_pressed_button SpeedEditorKey.STOP_PLAY (self sample_final)).
  - vm_compute; reflexivity.
  - vm_compute; reflexivity.
  - apply (bool_decide_unpack (SpeedEditorKey.STOP_PLAY ∉ ZOOM_KEYS)).
    vm_compute. exact I.
Defined.

End keys.

Section more_keys.
Import MackieHandler.
Variables CAM1 CAM2 CAM3 CAM4 CAM5 CAM6 CAM7 CAM8 CAM9 : Z.
Local Abbreviation run_ := (run CAM1 CAM2 CAM3 CAM4 CAM5 CAM6 CAM7 CAM8 CAM9).
Local Abbreviation step_ := (step CAM1 CAM2 CAM3 CAM4 CAM5 CAM6 CAM7 CAM8 CAM9).

Lemma key_stores_snapshot ks s :
  keys (obj (final (key ks s))) = list_to_set ks.
Proof.
  unfold key. cbv zeta. rewrite run_bind_get, run_bind_modify.
  set (s1 := set_keys (list_to_set ks) s).
  set (m := _ ≫= _).
  transitivity (keys (obj s1)); [|by destruct s as [? []]].
  cut (respects (keeps (λ s, keys (obj s))) m); [intros H; exact (H s1)|].
  subst m. keeps_all (λ s : Self, keys (obj s)).
Qed.

(** X13.  A snapshot equal to the stored set of held keys is ignored: no key
    handler runs, nothing is sent and no attribute changes.  As every key
    update stores its snapshot even when it raises, a key update repeated
    right away does nothing. *)
Theorem key_repeated_snapshot_ignored (ks : list SpeedEditorKey.t) (s : Self) :
  (keys (obj s) = list_to_set ks → key ks s = MkRes (inr ()) s []) ∧
  let s1 := final (key ks s) in
  key ks s1 = MkRes (inr ()) s1 [].
Proof.
  assert (Hsame : ∀ s', keys (obj s') = list_to_set ks →
                        key ks s' = MkRes (inr ()) s' []).
  { intros s' Hk. unfold key. cbv zeta. run. rewrite Hk, difference_diag_L, elements_empty.
    cbn [for_each]. run. destruct s' as [c []]. cbn in Hk. by rewrite Hk. }
  split; [apply Hsame|]. cbv zeta. apply Hsame, key_stores_snapshot.
Qed.

Lemma zoom_handle_keys_run s :
  zoom_handle_keys s
  = MkRes (inr ())
      (if zoom_held s && negb (zoom_timer_on (obj s))
       then set_zoom_timer_on true s else s)
      ((if zoom_held s && negb (zoom_mode (obj s))
        then [midi_note_on MCU_ZOOM 127] else []) ++
       direction_notes s ++
       (if zoom_held s && negb (zoom_timer_on (obj s)) then [timer_start] else [])).
Proof.
  unfold zoom_handle_keys, zoom_held, direction_notes, ZOOM_KEYS,
    set_zoom_mode, set_zoom_timer, send_midi_note.
  rewrite run_bind_get. cbv zeta. cbn [existsb].
  destruct (bool_decide (SpeedEditorKey.IN ∈ keys (obj s)));
  destruct (bool_decide (SpeedEditorKey.OUT ∈ keys (obj s)));
  destruct (bool_decide (SpeedEditorKey.TRIM_IN ∈ keys (obj s)));
  destruct (bool_decide (SpeedEditorKey.TRIM_OUT ∈ keys (obj s)));
  cbn [orb andb when]; run;
  destruct (zoom_mode (obj s)), (zoom_timer_on (obj s)) eqn:Hon;
  cbn [negb andb when app]; run; cbn [negb when]; run;
  rewrite ?Hon; cbn [negb when]; run; reflexivity.
Qed.

(** X14.  The repeat chain of the zoom keys.  In a state the bridge reaches
    with the repeat timer running, the timer can fire; if no zoom key is held
    any more the callback sends nothing, clears the flag and leaves no timer
    outstanding; if one is held it sends the directional note of every held
    zoom key (after the MCU_ZOOM note when the zoom status is clear), starts
    exactly one new timer and leaves the state as it was. *)
Theorem zoom_repeat_chain (evs : list event) (y : Sys) :
  run_ evs boot = Some y →
  zoom_timer_on (obj (self y)) = true →
  let r := zoom_repeat (self y) in
  step_ ev_timer y = Some (MkSys (final r) (timers y - 1 + timers_started (sent r))) ∧
  (zoom_held (self y) = false →
     sent r = [] ∧ final r = set_zoom_timer_on false (self y) ∧
     (timers y - 1 + timers_started (sent r) = 0)%nat) ∧
  (zoom_held (self y) = true →
     sent r = (if zoom_mode (obj (self y)) then [] else [midi_note_on MCU_ZOOM 127])
              ++ direction_notes (self y) ++ [timer_start] ∧
     direction_notes (self y) ≠ [] ∧
     final r = self y ∧
     (timers y - 1 + timers_started (sent r) = 1)%nat).
Proof.
  intros Hrun Hon. cbv zeta.
  destruct (run_accounts CAM1 CAM2 CAM3 CAM4 CAM5 CAM6 CAM7 CAM8 CAM9
              evs boot y boot_inv Hrun) as [(Ht & _) _].
  assert (Hone : timers y = 1%nat) by (rewrite Ht; unfold armed; by rewrite Hon).
  rewrite zoom_repeat_run, zoom_handle_keys_run.
  assert (Hheld : zoom_held (set_zoom_timer_on false (self y)) = zoom_held (self y)).
  { by destruct (self y) as [? []]. }
  assert (Hdir : direction_notes (set_zoom_timer_on false (self y))
                 = direction_notes (self y)).
  { by destruct (self y) as [? []]. }
  assert (Hzm : zoom_mode (obj (set_zoom_timer_on false (self y)))
                = zoom_mode (obj (self y))).
  { by destruct (self y) as [? []]. }
  assert (Hoff : zoom_timer_on (obj (set_zoom_timer_on false (self y))) = false).
  { by destruct (self y) as [? []]. }
  rewrite Hheld, Hdir, Hzm, Hoff. cbn [negb final sent].
  split_and!.
  - unfold step. cbn [fires]. rewrite decide_True by lia.
    cbn [handler_of]. rewrite zoom_repeat_run, zoom_handle_keys_run.
    rewrite Hheld, Hdir, Hzm, Hoff. done.
  - intros Hno. rewrite Hno. cbn [andb app].
    assert (direction_notes (self y) = []) as ->.
    { unfold zoom_held, ZOOM_KEYS in Hno. cbn [existsb] in Hno.
      rewrite !orb_false_iff in Hno. destruct Hno as (H1 & H2 & H3 & H4 & _).
      unfold direction_notes. by rewrite H1, H2, H3, H4. }
    split_and!; [done..|]. rewrite Hone. done.
  - intros Hyes. rewrite Hyes. cbn [andb].
    assert (Hnotes : direction_notes (self y) ≠ []).
    { unfold zoom_held, ZOOM_KEYS in Hyes. cbn [existsb] in Hyes.
      unfold direction_notes.
      destruct (bool_decide (SpeedEditorKey.IN ∈ _)); [done|].
      destruct (bool_decide (SpeedEditorKey.OUT ∈ _)); [done|].
      destruct (bool_decide (SpeedEditorKey.TRIM_IN ∈ _)); [done|].
      destruct (bool_decide (SpeedEditorKey.TRIM_OUT ∈ _)); [done|].
      done. }
    split_and!.
    + by destruct (zoom_mode (obj (self y))).
    + done.
    + destruct (self y) as [? []]. cbn in *. by rewrite Hon.
    + rewrite Hone. rewrite !timers_started_app.
      assert (timers_started (direction_notes (self y)) = 0%nat) as ->.
      { unfold direction_notes. by repeat case_bool_decide. }
      by destruct (zoom_mode (obj (self y))).
Qed.

(** X15.  A jog call writes nothing but the jog remainder: the held keys,
    the modifiers, the jog mode, the timer flag, the status flags and the LED
    mask are the same afterwards, whether the call returns or raises. *)
Theorem jog_writes_only_the_remainder (mode : SpeedEditorJogMode.t) (d : Z) (s : Self) :
  beside_remainder (final (jog mode d s)) = beside_remainder s.
Proof.
  cut (respects (keeps beside_remainder) (jog mode d)); [intros H; exact (H s)|].
  unfold jog, subscript. cbv zeta. keeps_all beside_remainder.
Qed.

End more_keys.

Lemma zoom_repeat_chain_witness :
  run 1 2 4 8 16 32 64 128 256 sample_session boot = Some sample_final ∧
  sent (MackieHandler.zoom_repeat (self sample_final)) = [] ∧
  final (MackieHandler.zoom_repeat (self sample_final))
    = set_zoom_timer_on false (self sample_final).
Proof.
  split; [vm_compute; reflexivity|].
  destruct (zoom_repeat_chain 1 2 4 8 16 32 64 128 256 sample_session sample_final)
    as (_ & Hidle & _).
  - vm_compute; reflexivity.
  - reflexivity.
  - destruct Hidle as (Hs & Hf & _); [vm_compute; reflexivity|]. by split.
Defined.

(** ** The panel *)

Lemma writes_through_refl s : writes_through s [] s.
Proof. by intros p. Qed.

Lemma writes_through_trans s1 o1 s2 o2 s3 :
  writes_through s1 o1 s2 → writes_through s2 o2 s3 → writes_through s1 (o1 ++ o2) s3.
Proof.
  intros H1 H2 p Hp. unfold panel_after. rewrite foldl_app. by apply H2, H1.
Qed.

Lemma writes_through_emit o :
  is_set_leds o = false → (∀ l, o ≠ se_set_jog_leds l) → (∀ m, o ≠ se_set_jog_mode m) →
  respects writes_through (emit o).
Proof.
  intros H1 H2 H3 s p Hp. cbn. destruct o; try done.
  - by destruct (H2 led).
  - by destruct (H3 m).
Qed.

Lemma writes_through_modify f :
  (∀ s, leds (obj (f s)) = leds (obj s) ∧ jog_mode (obj (f s)) = jog_mode (obj s)) →
  respects writes_through (modify f).
Proof.
  intros Hf s p (Hl & Hj). destruct (Hf s) as [Hl' Hj'].
  split; cbn; by rewrite ?Hl', ?Hj'.
Qed.

Lemma panel_after_encoder out p : Forall encoder_output out → panel_after out p = p.
Proof.
  intros Hall. induction Hall as [|o out Ho _ IH]; [done|].
  unfold panel_after in *. cbn [foldl]. by destruct o.
Qed.

Lemma nudge_writes_through shift :
  respects writes_through (MackieHandler.send_midi_nudge_msgs shift).
Proof.
  intros s p Hp. destruct (proj1 (encoders_run shift s)) as (out & -> & Hall).
  cbn [final sent]. by rewrite panel_after_encoder.
Qed.

Lemma jog_cc_writes_through shift :
  respects writes_through (MackieHandler.send_midi_jog_cc shift).
Proof.
  intros s p Hp. destruct (proj2 (encoders_run shift s)) as (out & -> & Hall).
  cbn [final sent]. by rewrite panel_after_encoder.
Qed.

Lemma set_jog_mode_for_key_writes_through k :
  respects writes_through (MackieHandler._set_jog_mode_for_key k).
Proof.
  intros s p (Hl & Hj). unfold MackieHandler._set_jog_mode_for_key.
  destruct (MackieHandler.JOG !! k) as [[led mode]|] eqn:Hk.
  - run. destruct s as [c []]. cbn in *. split; [done|]. by exists led, mode.
  - by cbn.
Qed.

Ltac writes_prim :=
  first [ apply set_jog_mode_for_key_writes_through
        | apply nudge_writes_through | apply jog_cc_writes_through
        | apply writes_through_emit; [reflexivity|discriminate|discriminate]
        | apply writes_through_modify; intros [[?] []]; split; reflexivity ].

Ltac writes_all :=
  repeat frame_step writes_through writes_through_refl writes_through_trans writes_prim.

Section panel.
Import MackieHandler.
Variables CAM1 CAM2 CAM3 CAM4 CAM5 CAM6 CAM7 CAM8 CAM9 : Z.
Local Abbreviation run_ := (run CAM1 CAM2 CAM3 CAM4 CAM5 CAM6 CAM7 CAM8 CAM9).
Local Abbreviation step_ := (step CAM1 CAM2 CAM3 CAM4 CAM5 CAM6 CAM7 CAM8 CAM9).
Local Abbreviation handler_of_ := (handler_of CAM1 CAM2 CAM3 CAM4 CAM5 CAM6 CAM7 CAM8 CAM9).
Local Abbreviation outputs_ := (outputs CAM1 CAM2 CAM3 CAM4 CAM5 CAM6 CAM7 CAM8 CAM9).
Local Abbreviation receive_ :=
  (receive_thread_body CAM1 CAM2 CAM3 CAM4 CAM5 CAM6 CAM7 CAM8 CAM9).

Lemma receive_writes_through msg : respects writes_through (receive_ msg).
Proof.
  destruct msg as [note velocity|]; [|intros s; apply writes_through_refl].
  destruct (decide (note = MCU_PLAY)) as [->|Hn].
  - intros s p (Hl & Hj). rewrite receive_play_run. cbv zeta. cbn [final sent].
    destruct s as [c []]. cbn in *. by split.
  - unfold receive_thread_body.
    rewrite (bool_decide_eq_false_2 (note = MCU_PLAY)) by done.
    cbn [when]. writes_all.
Qed.

Lemma handler_writes_through e : respects writes_through (handler_of_ e).
Proof.
  destruct e as [ks|mode d|msg|]; cbn [handler_of].
  - unfold key, key_released, key_pressed, zoom_handle_keys, zoom_repeat,
      set_zoom_mode, set_zoom_timer, send_midi_note. cbv zeta. writes_all.
  - unfold jog, subscript. cbv zeta. writes_all.
  - apply receive_writes_through.
  - unfold zoom_repeat, zoom_handle_keys, set_zoom_mode, set_zoom_timer,
      send_midi_note. cbv zeta. writes_all.
Qed.

Lemma run_writes_through evs : ∀ y y' p,
  mirrors p (self y) → run_ evs y = Some y' →
  mirrors (panel_after (outputs_ evs y) p) (self y').
Proof.
  induction evs as [|e evs IH]; intros y y' p Hp Hrun; cbn in Hrun.
  - by injection Hrun as <-.
  - cbn [outputs]. destruct (step_ e y) as [y1|] eqn:Hstep; [|done]. cbn in Hrun.
    unfold panel_after. rewrite foldl_app. apply IH; [|done].
    unfold step in Hstep. case_decide; [|done]. injection Hstep as <-.
    cbn [self]. by apply handler_writes_through.
Qed.

(** X16.  The panel shows what the handler holds.  After start-up and any
    run of events, the LED mask last written with [set_leds] is the handler's
    [leds], and the ring LED and the jog mode last written with
    [set_jog_leds] and [set_jog_mode] are the pair that [JOG] gives for the
    handler's [jog_mode]. *)
Theorem panel_mirrors_handler (evs : list event) (y : Sys) :
  run_ evs boot = Some y →
  mirrors (panel_after (boot_outputs ++ outputs_ evs boot) never_written) (self y).
Proof.
  intros Hrun. unfold panel_after. rewrite foldl_app.
  apply run_writes_through; [|done].
  split; [reflexivity|].
  exists SpeedEditorJogLed.JOG, SpeedEditorJogMode.RELATIVE_2. by vm_compute.
Qed.

End panel.

Lemma panel_mirrors_handler_witness :
  run 1 2 4 8 16 32 64 128 256 sample_session boot = Some sample_final ∧
  mirrors (panel_after (boot_outputs ++ outputs 1 2 4 8 16 32 64 128 256 sample_session boot)
                       never_written)
          (self sample_final).
Proof.
  split; [vm_compute; reflexivity|].
  apply (panel_mirrors_handler 1 2 4 8 16 32 64 128 256 sample_session sample_final).
  vm_compute; reflexivity.
Defined.

(** ** The modifier of the ROLL key *)

Section roll.
Import MackieHandler.
Variables CAM1 CAM2 CAM3 CAM4 CAM5 CAM6 CAM7 CAM8 CAM9 : Z.
Local Abbreviation run_ := (run CAM1 CAM2 CAM3 CAM4 CAM5 CAM6 CAM7 CAM8 CAM9).
Local Abbreviation step_ := (step CAM1 CAM2 CAM3 CAM4 CAM5 CAM6 CAM7 CAM8 CAM9).
Local Abbreviation handler_of_ := (handler_of CAM1 CAM2 CAM3 CAM4 CAM5 CAM6 CAM7 CAM8 CAM9).
Local Abbreviation rotation_out_ := (rotation_out CAM1 CAM2 CAM3 CAM4 CAM5 CAM6 CAM7 CAM8 CAM9).

Lemma modifier_key_is_roll k m :
  MODIFIER_KEY_MAP !! k = Some m ↔ k = SpeedEditorKey.ROLL ∧ m = KeyModifiers.NUDGE.
Proof.
  rewrite MODIFIER_KEY_MAP_lookup. split.
  - destruct k; try done. intros [= <-]. done.
  - by intros [-> ->].
Qed.

Lemma key_pressed_plain_cls k :
  MODIFIER_KEY_MAP !! k = None → respects (keeps cls) (key_pressed k).
Proof.
  intros Hk. unfold key_pressed, modifier_pressed. cbv zeta. rewrite Hk.
  keeps_all cls.
Qed.

Lemma press_loop_nudge l : ∀ s,
  KeyModifiers.NUDGE ∈ modifiers (cls (final (for_each l key_pressed s)))
  ↔ KeyModifiers.NUDGE ∈ modifiers (cls s) ∨ SpeedEditorKey.ROLL ∈ l.
Proof.
  induction l as [|x l IH]; intros s.
  - cbn. rewrite elem_of_nil. tauto.
  - cbn [for_each].
    destruct (key_pressed_run x s) as (Ho & _).
    rewrite (run_bind_returns (key_pressed x) _ s () Ho). cbn [final].
    rewrite IH, elem_of_cons.
    destruct (MODIFIER_KEY_MAP !! x) as [m|] eqn:Hx.
    + rewrite (key_pressed_modifier x m s Hx). cbn [final].
      apply modifier_key_is_roll in Hx as [-> ->].
      destruct s as [[mods] o]. cbn. set_solver.
    + rewrite (key_pressed_plain_cls x Hx s).
      assert (x ≠ SpeedEditorKey.ROLL).
      { intros ->. by rewrite MODIFIER_KEY_MAP_lookup in Hx. }
      naive_solver.
Qed.

Lemma release_loop_nudge l : ∀ s,
  NoDup l →
  (SpeedEditorKey.ROLL ∈ l → KeyModifiers.NUDGE ∈ modifiers (cls s)) →
  let r := for_each l key_released s in
  outcome r = inr () ∧
  obj (final r) = obj s ∧
  (KeyModifiers.NUDGE ∈ modifiers (cls (final r))
   ↔ KeyModifiers.NUDGE ∈ modifiers (cls s) ∧ SpeedEditorKey.ROLL ∉ l).
Proof.
  induction l as [|x l IH]; intros s Hnd Hheld; cbv zeta.
  - cbn. rewrite elem_of_nil. tauto.
  - apply NoDup_cons in Hnd as [Hx Hnd]. cbn [for_each].
    destruct (MODIFIER_KEY_MAP !! x) as [m|] eqn:Hkm.
    + pose proof Hkm as Hkm'. apply modifier_key_is_roll in Hkm' as [-> ->].
      assert (Hm : KeyModifiers.NUDGE ∈ modifiers (cls s)) by (apply Hheld; left).
      assert (Hkr : key_released SpeedEditorKey.ROLL s
                = MkRes (inr ())
                    (set_modifiers (modifiers (cls s) ∖ {[ KeyModifiers.NUDGE ]}) s)
                    [enter_key_released SpeedEditorKey.ROLL]).
      { rewrite key_released_run, (modifier_released_run _ _ s Hkm).
        by rewrite decide_True. }
      rewrite (run_bind_returns (key_released _) _ s ()) by (by rewrite Hkr).
      rewrite Hkr. cbn [outcome final sent].
      set (s1 := set_modifiers _ s).
      destruct (IH s1 Hnd) as (Ho & Hob & Hiff); [done|].
      split_and!; [done|by rewrite Hob|].
      rewrite Hiff. subst s1. destruct s as [[mods] o]. cbn. set_solver.
    + assert (x ≠ SpeedEditorKey.ROLL).
      { intros ->. by rewrite MODIFIER_KEY_MAP_lookup in Hkm. }
      rewrite (run_bind_returns (key_released x) _ s ())
        by (by rewrite (key_released_plain x s Hkm)).
      rewrite (key_released_plain x s Hkm). cbn [outcome final sent].
      destruct (IH s Hnd) as (Ho & Hob & Hiff).
      { intros Hin. apply Hheld. by right. }
      split_and!; [done..|]. rewrite Hiff, elem_of_cons. naive_solver.
Qed.

Lemma key_tracks ks s :
  nudge_tracks_roll s →
  outcome (key ks s) = inr () ∧ nudge_tracks_roll (final (key ks s)).
Proof.
  intros Htr. pose proof (key_stores_snapshot ks s) as Hkeys.
  unfold nudge_tracks_roll in *. rewrite Hkeys. clear Hkeys.
  unfold key. cbv zeta. run.
  set (P := keys (obj s)) in *. set (N := list_to_set ks : gset SpeedEditorKey.t).
  set (s1 := set_keys N s).
  destruct (release_loop_nudge (elements (P ∖ N)) s1) as (Ho & Hob & Hiff).
  { apply NoDup_elements. }
  { rewrite elem_of_elements, elem_of_difference. intros [HP _].
    assert (Hs1 : modifiers (cls s1) = modifiers (cls s)) by (by destruct s as [[?] []]).
    rewrite Hs1. by apply Htr. }
  rewrite (run_bind_returns (for_each _ key_released) _ s1 () Ho).
  cbn [outcome final sent].
  set (s2 := final (for_each (elements (P ∖ N)) key_released s1)) in *.
  destruct (press_loop (elements (N ∖ P)) s2) as (Ho' & _).
  split; [done|].
  rewrite press_loop_nudge, Hiff, !elem_of_elements, !elem_of_difference.
  assert (Hs1 : modifiers (cls s1) = modifiers (cls s)) by (by destruct s as [[?] []]).
  rewrite Hs1, Htr.
  destruct (decide (SpeedEditorKey.ROLL ∈ P)), (decide (SpeedEditorKey.ROLL ∈ N)); tauto.
Qed.

Lemma tracks_of_keeps {A} (m : M A) s :
  respects (keeps (λ s, (cls s, keys (obj s)))) m →
  nudge_tracks_roll s → nudge_tracks_roll (final (m s)).
Proof.
  intros H Htr. specialize (H s). unfold keeps in H.
  set (s' := final (m s)) in *. injection H as Hc Hk.
  unfold nudge_tracks_roll. by rewrite Hc, Hk.
Qed.

Lemma step_tracks e y y' :
  nudge_tracks_roll (self y) → step_ e y = Some y' → nudge_tracks_roll (self y').
Proof.
  intros Htr Hstep. unfold step in Hstep. case_decide; [|done].
  injection Hstep as <-. cbn [self].
  destruct e as [ks|mode d|msg|]; cbn [handler_of].
  - by apply key_tracks.
  - apply tracks_of_keeps; [|done].
    unfold jog, subscript. cbv zeta. keeps_all (λ s : Self, (cls s, keys (obj s))).
  - apply tracks_of_keeps; [|done].
    unfold receive_thread_body. keeps_all (λ s : Self, (cls s, keys (obj s))).
  - apply tracks_of_keeps; [|done].
    keeps_all (λ s : Self, (cls s, keys (obj s))).
Qed.

Lemma run_tracks evs : ∀ y y',
  nudge_tracks_roll (self y) → run_ evs y = Some y' → nudge_tracks_roll (self y').
Proof.
  induction evs as [|e evs IH]; intros y y' Htr Hrun; cbn in Hrun.
  - by injection Hrun as <-.
  - destruct (step_ e y) as [y1|] eqn:Hstep; [|done]. cbn in Hrun.
    apply (IH y1 y'); [|done]. by apply (step_tracks e y).
Qed.

(** X17.  In every state a single bridge reaches, NUDGE is active exactly
    while ROLL is held; hence a nudge burst repeats MCU_USER_A or MCU_USER_B
    exactly when ROLL is down, and MCU_F1 or MCU_F2 otherwise. *)
Theorem nudge_active_iff_roll_held (evs : list event) (y : Sys) :
  run_ evs boot = Some y →
  nudge_tracks_roll (self y) ∧
  ∀ shift,
    sent (send_midi_nudge_msgs shift (self y))
    = enter_send_midi_nudge_msgs shift ::
      replicate (Z.to_nat (ramped (Z.abs shift)))
        (midi_note_on
           (if decide (SpeedEditorKey.ROLL ∈ keys (obj (self y)))
            then (if decide (shift < 0) then MCU_USER_A else MCU_USER_B)
            else (if decide (shift < 0) then MCU_F1 else MCU_F2)) 127).
Proof.
  intros Hrun.
  assert (Htr : nudge_tracks_roll (self y)).
  { apply (run_tracks evs boot y); [|done].
    unfold nudge_tracks_roll. cbn. set_solver. }
  split; [done|]. intros shift. rewrite send_midi_nudge_msgs_spec. cbn [sent].
  unfold nudge_tracks_roll in Htr.
  destruct (decide (KeyModifiers.NUDGE ∈ _)), (decide (SpeedEditorKey.ROLL ∈ _)); tauto || done.
Qed.

(** ** Bursts of jog calls *)

Lemma jog_burst evs : ∀ y y' f,
  JOG_SPEED_DIV_FACTOR !! jog_mode (obj (self y)) = Some f →
  forallb is_jog evs = true →
  run_ evs y = Some y' →
  jog_mode (obj (self y')) = jog_mode (obj (self y)) ∧
  (∃ q, rotation_out_ evs y = q * f) ∧
  (evs ≠ [] → 0 ≤ jog_unsent (obj (self y')) < f).
Proof.
  induction evs as [|e evs IH]; intros y y' f Hf Hall Hrun.
  - cbn in Hrun. injection Hrun as <-. split_and!; [done|by exists 0|done].
  - cbn [forallb] in Hall. apply andb_prop in Hall as [He Hall].
    destruct e as [|mode d| |]; try done.
    cbn [run] in Hrun. cbn [rotation_out].
    destruct (step_ (ev_jog mode d) y) as [y1|] eqn:Hstep; [|done]. cbn in Hrun.
    unfold step in Hstep. case_decide; [|done]. injection Hstep as <-.
    cbn [handler_of] in *.
    destruct (jog_accounts (self y) mode d f Hf)
      as (_ & Hmode & _ & _ & _ & _ & Hrange & _).
    cbv zeta in *.
    set (y1 := MkSys _ _) in *.
    assert (Hmode1 : jog_mode (obj (self y1)) = jog_mode (obj (self y))) by exact Hmode.
    destruct (IH y1 y' f) as (Hmode' & [q Hq] & Hlast); [by rewrite Hmode1|done..|].
    split_and!.
    + by rewrite Hmode', Hmode1.
    + unfold active_factor. rewrite Hf. cbn [default]. rewrite Hq.
      eexists (_ + q). rewrite Z.mul_add_distr_r. reflexivity.
    + intros _. destruct evs as [|e' evs']; [|by apply Hlast].
      cbn in Hrun. injection Hrun as <-. exact Hrange.
Qed.

(** X18.  A burst of jog calls in one jog mode behaves like one division:
    from a state the bridge reaches, after a non-empty run of jog calls only,
    the remainder left is (remainder before + native units of the burst)
    modulo the factor of the mode, and what went out is the quotient times
    the factor; the jog mode is the same. *)
Theorem jog_burst_is_one_division (evs0 evs : list event) (y y' : Sys) (f : Z) :
  run_ evs0 boot = Some y →
  JOG_SPEED_DIV_FACTOR !! jog_mode (obj (self y)) = Some f →
  forallb is_jog evs = true →
  evs ≠ [] →
  run_ evs y = Some y' →
  let total := jog_unsent (obj (self y)) + rotation_in evs in
  jog_unsent (obj (self y')) = total `mod` f ∧
  rotation_out_ evs y = total `div` f * f ∧
  jog_mode (obj (self y')) = jog_mode (obj (self y)).
Proof.
  intros Hrun0 Hf Hall Hne Hrun total.
  destruct (run_accounts CAM1 CAM2 CAM3 CAM4 CAM5 CAM6 CAM7 CAM8 CAM9
              evs0 boot y boot_inv Hrun0) as [Hinv _].
  destruct (run_accounts CAM1 CAM2 CAM3 CAM4 CAM5 CAM6 CAM7 CAM8 CAM9
              evs y y' Hinv Hrun) as [_ Hacc].
  destruct (jog_burst evs y y' f Hf Hall Hrun) as (Hmode & [q Hq] & Hrange).
  specialize (Hrange Hne). fold total in Hacc.
  pose proof (speed_div_factor_pos _ _ Hf) as Hpos.
  assert (Hmod : total `mod` f = jog_unsent (obj (self y'))).
  { symmetry. apply (Z.mod_unique_pos total f q); [done|]. lia. }
  split_and!; [done| |done].
  pose proof (Z.div_mod total f ltac:(lia)) as Hdm. lia.
Qed.

End roll.

Lemma nudge_active_iff_roll_held_witness :
  run 1 2 4 8 16 32 64 128 256 sample_session boot = Some sample_final ∧
  nudge_tracks_roll (self sample_final).
Proof.
  split; [vm_compute; reflexivity|].
  apply (nudge_active_iff_roll_held 1 2 4 8 16 32 64 128 256 sample_session sample_final).
  vm_compute; reflexivity.
Defined.

Lemma jog_burst_is_one_division_witness :
  run 1 2 4 8 16 32 64 128 256 jog_burst_sample sample_final = Some jog_burst_final ∧
  jog_unsent (obj (self jog_burst_final))
  = (jog_unsent (obj (self sample_final)) + rotation_in jog_burst_sample) `mod` 20.
Proof.
  split; [vm_compute; reflexivity|].
  apply (jog_burst_is_one_division 1 2 4 8 16 32 64 128 256
           sample_session jog_burst_sample sample_final jog_burst_final 20).
  - vm_compute; reflexivity.
  - vm_compute; reflexivity.
  - reflexivity.
  - discriminate.
  - vm_compute; reflexivity.
Defined.
